(** * Medical claim chatbot: the helpers of [main.py] and [app.py]

    A shallow embedding of the pure and state-passing parts of the
    repository: the response normalizer [_resp_text], the PDF text
    extraction loop, the conversation manager [chat_with_history], the
    bill parsers [parse_total_amount] and [sum_non_payables], the policy
    loader [load_policy_data], the display formatter
    [fmt_money_blocks] and the handlers of the buttons of the page.

    Conventions.  A Python [str] is a list of characters; a character of
    this development stands for the code point of the same number, so the
    texts covered are those over the code points below 256.  On that range
    the character classes below are exactly the ones Python uses
    ([str.isspace], the classes [\s], [\d], [\w] of [re], [str.lower] and
    the line boundaries of [str.splitlines]). *)

From Stdlib Require Import Ascii String List Bool Arith ZArith Lia.
From Stdlib Require Import DecimalString SpecFloat.
Import ListNotations.

Set Implicit Arguments.
Set Warnings "-register-all".

(** ** Texts and character classes *)

Definition text := list ascii.

(** [T "abc"] is the text written [abc]. *)
Definition T (s : string) : text := list_ascii_of_string s.
Arguments T s : simpl never.

Definition code (c : ascii) : nat := nat_of_ascii c.

Definition between (lo hi : nat) (c : ascii) : bool :=
  (lo <=? code c) && (code c <=? hi).

(** [str.isspace] on one character, which is also the class [\s]. *)
Definition isspace (c : ascii) : bool :=
  between 9 13 c || between 28 32 c || (code c =? 133) || (code c =? 160).

(** The class [\d]: decimal digits. *)
Definition isdecimal (c : ascii) : bool := between 48 57 c.

(** The class [\w]: alphanumeric characters and the underscore. *)
Definition isword (c : ascii) : bool :=
  between 48 57 c || between 65 90 c || (code c =? 95) || between 97 122 c
  || (code c =? 170) || between 178 179 c || (code c =? 181)
  || between 185 186 c || between 188 190 c
  || between 192 214 c || between 216 246 c || between 248 255 c.

(** [str.lower] on one character; the flag [re.I] compares folded
    characters. *)
Definition lower (c : ascii) : ascii :=
  if between 65 90 c || (between 192 222 c && negb (code c =? 215))
  then ascii_of_nat (code c + 32)
  else c.

(** The line boundaries of [str.splitlines]. *)
Definition islinebreak (c : ascii) : bool :=
  between 10 13 c || between 28 30 c || (code c =? 133).

Definition LF : ascii := ascii_of_nat 10.
Definition CR : ascii := ascii_of_nat 13.

Definition text_eqb (a b : text) : bool :=
  if list_eq_dec ascii_dec a b then true else false.

(** The length of the longest prefix of [s] made of characters of the
    class [f]. *)
Fixpoint span (f : ascii -> bool) (s : text) : nat :=
  match s with
  | c :: s' => if f c then S (span f s') else O
  | [] => O
  end.

(** [s] starts with a character of the class [f]. *)
Definition starts (f : ascii -> bool) (s : text) : bool :=
  match s with c :: _ => f c | [] => false end.

(** ** String methods *)

Fixpoint lstrip (s : text) : text :=
  match s with
  | c :: s' => if isspace c then lstrip s' else s
  | [] => []
  end.

Definition rstrip (s : text) : text := rev (lstrip (rev s)).

(** [s.strip()] *)
Definition strip (s : text) : text := rstrip (lstrip s).

(** [s.startswith(p)] *)
Fixpoint startswith (p s : text) : bool :=
  match p, s with
  | [], _ => true
  | a :: p', b :: s' => Ascii.eqb a b && startswith p' s'
  | _ :: _, [] => false
  end.

(** [p in s] for two strings. *)
Fixpoint contains (p s : text) : bool :=
  startswith p s ||
  match s with
  | [] => false
  | _ :: s' => contains p s'
  end.

(** [s.splitlines()]: the lines without their boundaries; a carriage
    return followed by a line feed is one boundary, and a final boundary
    opens no empty last line. *)
Fixpoint splitlines (s : text) : list text :=
  match s with
  | [] => []
  | c :: s' =>
      if islinebreak c then
        match s' with
        | d :: s'' =>
            if Ascii.eqb c CR && Ascii.eqb d LF
            then [] :: splitlines s''
            else [] :: splitlines s'
        | [] => [[]]
        end
      else
        match splitlines s' with
        | [] => [[c]]
        | l :: ls => (c :: l) :: ls
        end
  end.

(** ** Regular expressions

    The patterns of the repository use a small part of [re]: character
    classes, greedy runs of one class, sequencing, an optional group, the
    word boundary, a look-ahead and a look-behind for the start of the
    text.  The matcher below is the backtracking matcher of [re] on that
    part: alternatives are tried in priority order (a greedy run gives up
    one character at a time), and the first way to reach the end of the
    pattern wins. *)

Inductive re : Type :=
| Eps                                                  (* the empty pattern *)
| Cls (f : ascii -> bool)                              (* one character of a class *)
| Rep (f : ascii -> bool) (lo : nat) (hi : option nat) (* f{lo,hi}, greedy; [None] is no upper bound *)
| Seq (a b : re)
| Opt (a : re)                                         (* (?:a)? *)
| Bnd                                                  (* \b *)
| NotBegin                                             (* (?<!^) *)
| Ahead (a : re).                                      (* (?=a) *)

(** A position in the subject: the character before it, if any, and the
    text after it. *)
Definition pos : Type := option ascii * text.

(** The last character of a text, which is the character before the
    position that follows the text. *)
Definition last_char (s : text) : option ascii := hd_error (rev s).

Definition word_before (p : pos) : bool :=
  match fst p with Some c => isword c | None => false end.

Definition word_after (p : pos) : bool :=
  match snd p with c :: _ => isword c | [] => false end.

(** [\b] holds where exactly one side is a word character. *)
Definition boundary (p : pos) : bool := xorb (word_before p) (word_after p).

Definition may_take (hi : option nat) : bool :=
  match hi with Some O => false | _ => true end.

Section Matcher.
Variable R : Type.

(** A greedy run of the class [f], at least [lo] and at most [hi]
    characters, then the continuation [k]. *)
Fixpoint rep (f : ascii -> bool) (lo : nat) (hi : option nat)
    (k : pos -> option R) (prev : option ascii) (s : text) : option R :=
  let stop := match lo with O => k (prev, s) | S _ => None end in
  match s with
  | c :: s' =>
      if f c && may_take hi then
        match rep f (pred lo) (option_map pred hi) k (Some c) s' with
        | Some r => Some r
        | None => stop
        end
      else stop
  | [] => stop
  end.
End Matcher.

Fixpoint run (R : Type) (r : re) (k : pos -> option R) (p : pos) : option R :=
  match r with
  | Eps => k p
  | Cls f =>
      match snd p with
      | c :: s' => if f c then k (Some c, s') else None
      | [] => None
      end
  | Rep f lo hi => rep f lo hi k (fst p) (snd p)
  | Seq a b => run a (run b k) p
  | Opt a =>
      match run a k p with
      | Some x => Some x
      | None => k p
      end
  | Bnd => if boundary p then k p else None
  | NotBegin => match fst p with Some _ => k p | None => None end
  | Ahead a =>
      match run a (fun _ => Some tt) p with
      | Some _ => k p
      | None => None
      end
  end.

(** The length of the match of [r] at [p], if there is one.  With
    [advance] set an empty match is refused, and the matcher backtracks
    for a longer one: this is how [re] resumes after an empty match. *)
Definition match_len (r : re) (advance : bool) (p : pos) : option nat :=
  run r (fun q =>
           let n := length (snd p) - length (snd q) in
           if advance && (n =? 0) then None else Some n) p.

(** [re.search(r, s)] as a truth value. *)
Fixpoint search_from (r : re) (prev : option ascii) (s : text) : bool :=
  match match_len r false (prev, s) with
  | Some _ => true
  | None =>
      match s with
      | c :: s' => search_from r (Some c) s'
      | [] => false
      end
  end.

Definition search (r : re) (s : text) : bool := search_from r None s.

(** What the scanning loop of [re.sub] and [re.findall] finds at one
    position: the lengths of the matches that start there, in order.  A
    non-empty match is the only match of its position; an empty match may
    be followed by one non-empty match at the same position. *)
Definition matches_here (r : re) (p : pos) : list nat :=
  match match_len r false p with
  | Some (S n) => [S n]
  | Some O =>
      match match_len r true p with
      | Some n => [O; n]
      | None => [O]
      end
  | None => []
  end.

(** [scan r on_match on_char skip prev s] walks the subject from left to
    right.  [skip] counts the characters still covered by the last match;
    at a free position the matches found there go through [on_match], and
    the scan resumes at the end of the last of them, or after the next
    character, which goes through [on_char], when they are empty or there
    are none. *)
Section Scan.
Variable A : Type.
Variable r : re.
Variable on_match : text -> nat -> list A.   (* subject tail and match length *)
Variable on_char : ascii -> list A.           (* a character outside every match *)

Fixpoint scan (skip : nat) (prev : option ascii) (s : text) : list A :=
  match skip with
  | S n =>
      match s with
      | c :: s' => scan n (Some c) s'
      | [] => []
      end
  | O =>
      let ms := matches_here r (prev, s) in
      flat_map (on_match s) ms ++
      match s with
      | [] => []
      | c :: s' =>
          match last ms O with
          | O => on_char c ++ scan O (Some c) s'
          | S n => scan n (Some c) s'
          end
      end
  end.
End Scan.

(** [re.sub(r, repl, s)] for a replacement without group references. *)
Definition sub (r : re) (repl : text) (s : text) : text :=
  scan r (fun _ _ => repl) (fun c => [c]) O None s.

(** [re.findall(r, s)] for a pattern whose result is the matched text. *)
Definition findall (r : re) (s : text) : list text :=
  scan r (fun s n => [firstn n s]) (fun _ => []) O None s.

(** Building patterns. *)
Definition chr (c : ascii) : re := Cls (Ascii.eqb c).

(** A literal character under [re.I]. *)
Definition chr_i (c : ascii) : re := Cls (fun d => Ascii.eqb (lower d) (lower c)).

Fixpoint seq (rs : list re) : re :=
  match rs with
  | [] => Eps
  | [a] => a
  | a :: rs' => Seq a (seq rs')
  end.

(** A literal text under [re.I]. *)
Definition lit_i (s : text) : re := seq (map chr_i s).

(** [s.replace(old, new)]: the occurrences of [old] are replaced from
    left to right and do not overlap. *)
Fixpoint replace_from (old new : text) (skip : nat) (s : text) : text :=
  match skip with
  | S n =>
      match s with
      | _ :: s' => replace_from old new n s'
      | [] => []
      end
  | O =>
      match s with
      | [] => []
      | c :: s' =>
          if startswith old s
          then new ++ replace_from old new (pred (length old)) s'
          else c :: replace_from old new O s'
      end
  end.

Definition replace (old new s : text) : text :=
  match old with
  | [] => new ++ flat_map (fun c => c :: new) s
  | _ :: _ => replace_from old new O s
  end.

(** [s.split(sep, 1)] when [sep] occurs in [s]: the text before the first
    occurrence and the text after it. *)
Fixpoint split_once (sep s : text) : option (text * text) :=
  if startswith sep s then Some ([], skipn (length sep) s)
  else
    match s with
    | [] => None
    | c :: s' =>
        match split_once sep s' with
        | Some (h, t) => Some (c :: h, t)
        | None => None
        end
    end.

(** [sep.join(parts)] *)
Fixpoint join (sep : text) (parts : list text) : text :=
  match parts with
  | [] => []
  | [p] => p
  | p :: ps => p ++ sep ++ join sep ps
  end.

(** ** Python values

    The values a response of the model service can be made of: the
    constants, integers, strings, lists, dictionaries with string keys (in
    insertion order), and instances that hold data attributes.  An
    instance carries the texts its [__str__] and [__repr__] return. *)

Inductive value : Type :=
| VNone
| VBool (b : bool)
| VInt (z : Z)
| VStr (s : text)
| VList (l : list value)
| VDict (d : list (text * value))
| VObj (str_ repr_ : text) (attrs : list (text * value)).

Inductive exn : Type :=
| AttributeError
| TypeError
| KeyError
| IndexError
| FileNotFoundError
| JSONDecodeError
| ServiceError (msg : text).      (* whatever an external call raises *)

(** The result of a call that may raise. *)
Inductive outcome (A : Type) : Type :=
| Ok (a : A)
| Err (e : exn).
Arguments Ok {A} a.
Arguments Err {A} e.

Fixpoint assoc (A : Type) (k : text) (d : list (text * A)) : option A :=
  match d with
  | [] => None
  | (k', v) :: d' => if text_eqb k k' then Some v else assoc k d'
  end.

(** [getattr(v, name)] for a data attribute; [None] is [AttributeError].
    Only instances have the attributes read in this repository
    ([choices], [message], [content], [text]). *)
Definition getattr (v : value) (name : text) : option value :=
  match v with
  | VObj _ _ attrs => assoc name attrs
  | _ => None
  end.


(** The truth value of [v] in a condition. *)
Definition truthy (v : value) : bool :=
  match v with
  | VNone => false
  | VBool b => b
  | VInt z => negb (z =? 0)%Z
  | VStr s => match s with [] => false | _ => true end
  | VList l => match l with [] => false | _ => true end
  | VDict d => match d with [] => false | _ => true end
  | VObj _ _ _ => true
  end.

(** [v[0]] *)
Definition item0 (v : value) : outcome value :=
  match v with
  | VList (x :: _) => Ok x
  | VList [] => Err IndexError
  | VStr (c :: _) => Ok (VStr [c])
  | VStr [] => Err IndexError
  | VDict _ => Err KeyError
  | _ => Err TypeError
  end.

(** [v[k]] for a string key [k]. *)
Definition item (v : value) (k : text) : outcome value :=
  match v with
  | VDict d => match assoc k d with Some x => Ok x | None => Err KeyError end
  | _ => Err TypeError
  end.

(** [k in v] for a string [k]. *)
Definition py_in (k : text) (v : value) : outcome bool :=
  match v with
  | VDict d => Ok (match assoc k d with Some _ => true | None => false end)
  | VStr s => Ok (contains k s)
  | VList l =>
      Ok (existsb (fun x => match x with VStr s => text_eqb s k | _ => false end) l)
  | _ => Err TypeError
  end.

(** [d.get(k, default)] on a dictionary. *)
Definition dict_get (d : list (text * value)) (k : text) (default : value) : value :=
  match assoc k d with Some x => x | None => default end.

(** [v.strip()]: only strings have the method. *)
Definition strip_of (v : value) : outcome text :=
  match v with
  | VStr s => Ok (strip s)
  | _ => Err AttributeError
  end.

(** *** [repr] and [str] *)

Definition hex_digit (n : nat) : ascii :=
  ascii_of_nat (if n <? 10 then 48 + n else 87 + n).

Definition printable (c : ascii) : bool :=
  negb (between 0 31 c || between 127 160 c || (code c =? 173)).

Definition repr_char (quote : ascii) (c : ascii) : text :=
  if Ascii.eqb c "\"%char then T "\\"
  else if Ascii.eqb c quote then ["\"%char; c]
  else if code c =? 9 then T "\t"
  else if code c =? 10 then T "\n"
  else if code c =? 13 then T "\r"
  else if printable c then [c]
  else T "\x" ++ [hex_digit (code c / 16); hex_digit (code c mod 16)].

Definition SQ : ascii := ascii_of_nat 39.
Definition DQ : ascii := ascii_of_nat 34.

Definition repr_str (s : text) : text :=
  let quote :=
    if existsb (Ascii.eqb SQ) s && negb (existsb (Ascii.eqb DQ) s)
    then DQ else SQ in
  quote :: flat_map (repr_char quote) s ++ [quote].

Definition repr_int (z : Z) : text :=
  T (DecimalString.NilZero.string_of_int (Z.to_int z)).

Fixpoint py_repr (v : value) : text :=
  match v with
  | VNone => T "None"
  | VBool b => if b then T "True" else T "False"
  | VInt z => repr_int z
  | VStr s => repr_str s
  | VList l => T "[" ++ join (T ", ") (map py_repr l) ++ T "]"
  | VDict d =>
      T "{" ++
      join (T ", ") (map (fun kv => repr_str (fst kv) ++ T ": " ++ py_repr (snd kv)) d)
      ++ T "}"
  | VObj _ r _ => r
  end.

(** [str(v)] *)
Definition py_str (v : value) : text :=
  match v with
  | VStr s => s
  | VObj s _ _ => s
  | _ => py_repr v
  end.

(** ** Control flow of a function body *)

(** What executing a statement does: it returns from the function, lets
    an exception escape, or falls through to the next statement. *)
Inductive flow (A : Type) : Type :=
| Returns (a : A)
| Raises (e : exn)
| Falls.
Arguments Returns {A} a.
Arguments Raises {A} e.
Arguments Falls {A}.

(** Evaluate an expression that may raise, then go on. *)
Definition eval (A B : Type) (o : outcome A) (k : A -> flow B) : flow B :=
  match o with
  | Ok a => k a
  | Err e => Raises e
  end.

(** One statement after the other. *)
Definition then_ (A : Type) (s1 s2 : flow A) : flow A :=
  match s1 with
  | Falls => s2
  | _ => s1
  end.

Notation "'let!' x ':=' o 'in' k" := (eval o (fun x => k))
  (at level 10, x name, o at level 100, k at level 200).
Notation "s1 ;; s2" := (then_ s1 s2) (at level 61, left associativity).
Notation "'when' c 'do' s" := (if c then s else Falls)
  (at level 10, c at level 100, s at level 200).

(** A statement that returns only stripped texts. *)
Definition returns_stripped (f : flow text) : Prop :=
  forall s, f = Returns s -> exists s', s = strip s'.

(** * main.py *)

Module Main.

(** ** [_resp_text] *)

(** [return v.strip()] *)
Definition return_strip (v : value) : flow text :=
  let! s := strip_of v in Returns s.

(** The first [if] of the [try] block: a response with attributes. *)
Definition by_attributes (resp : value) : flow text :=
  match getattr resp (T "choices") with
  | Some choices =>
      when truthy choices do
        let! ch := item0 choices in
        (match getattr ch (T "message") with
         | Some message =>
             match getattr message (T "content") with
             | Some content => return_strip content
             | None => Falls
             end
         | None => Falls
         end) ;;
        (match getattr ch (T "text") with
         | Some text_ => return_strip text_
         | None => Falls
         end)
  | None => Falls
  end.

(** The second [if]: a response that is a dictionary. *)
Definition by_keys (resp : value) : flow text :=
  match resp with
  | VDict d =>
      match assoc (T "choices") d with
      | Some choices =>
          let! ch := item0 choices in
          (let! has_message := py_in (T "message") ch in
           when has_message do
             let! message := item ch (T "message") in
             match message with
             | VDict m => return_strip (dict_get m (T "content") (VStr []))
             | _ => Falls
             end) ;;
          (let! has_text := py_in (T "text") ch in
           when has_text do
             let! text_ := item ch (T "text") in
             return_strip text_)
      | None => Falls
      end
  | _ => Falls
  end.

(** The third [if]: a top-level [content] attribute. *)
Definition by_content (resp : value) : flow text :=
  match getattr resp (T "content") with
  | Some content => return_strip content
  | None => Falls
  end.

(** The body of the [try] block. *)
Definition try_block (resp : value) : flow text :=
  by_attributes resp ;; by_keys resp ;; by_content resp.

(** [_resp_text(resp)]: the bare [except] swallows every exception of
    the [try] block, and the last line converts the whole response. *)
Definition _resp_text (resp : value) : outcome text :=
  match try_block resp with
  | Returns s => Ok s
  | Raises _ | Falls => Ok (strip (py_str resp))
  end.

(** ** The model service

    A client of the model service answers a list of messages with a
    response or raises.  Its answer may depend on everything it was sent
    before, so a client is a function of the requests made so far and of
    the new request; the state threaded through the code is that list of
    requests, oldest first. *)

Inductive part : Type :=
| TextPart (text_ : text)              (* {"type": "text", "text": ...} *)
| ImageUrl (url : text).               (* {"type": "image_url", "image_url": {"url": ...}} *)

Inductive content_t : Type :=
| Text (s : text)
| Parts (ps : list part).

(** A message: the dictionary [{"role": ..., "content": ...}]. *)
Record message : Type := Message { role : text; content : content_t }.

Definition request : Type := list message.
Definition trace : Type := list request.
Definition client : Type := trace -> request -> outcome value.

(** A computation that talks to the service. *)
Definition io (A : Type) : Type := trace -> outcome A * trace.

(** [client.invoke(messages)] *)
Definition invoke (c : client) (messages : request) : io value :=
  fun tr => (c tr messages, tr ++ [messages]).

(** ** Text extraction *)

Section Extraction.
(** Pillow and PyMuPDF are outside the repository: an image, its data
    URL, a page of an opened document. *)
Variable image : Type.
Variable pil_to_data_url : image -> text.

Record pixmap : Type := Pixmap { width : Z; height : Z; samples : list ascii }.

(** [Image.frombytes(mode, size, data)] *)
Variable frombytes : text -> Z * Z -> list ascii -> image.

Record page : Type := Page {
  get_text : text;                  (* page.get_text() *)
  get_pixmap : Z -> pixmap          (* page.get_pixmap(dpi=...) *)
}.

(** [fitz.open(stream=file_bytes, filetype="pdf")]: the pages of the
    document, or the exception of a stream that is no PDF. *)
Variable fitz_open : list ascii -> outcome (list page).

Definition ocr_messages (data_url : text) : request :=
  [ Message (T "system") (Text (T "Extract text exactly. Do NOT summarize."));
    Message (T "user") (Parts [TextPart (T "Extract all text:"); ImageUrl data_url]) ].

Definition extract_text_from_image (img : image) (vision_client : client) : io text :=
  fun tr =>
    let data_url := pil_to_data_url img in
    let messages := ocr_messages data_url in
    match invoke vision_client messages tr with
    | (Ok resp, tr') => (_resp_text resp, tr')
    | (Err e, tr') => (Err e, tr')
    end.

(** The body of [for page in doc]: what one page appends to [pages]. *)
Definition page_text (vision_client : client) (pg : page) : io text :=
  fun tr =>
    let native := get_text pg in
    if truthy (VStr (strip native)) then (Ok native, tr)
    else
      let pix := get_pixmap pg 200 in
      let img := frombytes (T "RGB") (width pix, height pix) (samples pix) in
      extract_text_from_image img vision_client tr.

(** The loop over the pages, with the list [pages] built so far. *)
Fixpoint for_pages (vision_client : client) (doc : list page) (pages : list text)
    : io (list text) :=
  fun tr =>
    match doc with
    | [] => (Ok pages, tr)
    | pg :: doc' =>
        match page_text vision_client pg tr with
        | (Ok t, tr') => for_pages vision_client doc' (pages ++ [t]) tr'
        | (Err e, tr') => (Err e, tr')
        end
    end.

Definition extract_text_from_pdf (PYMUPDF_OK : bool) (file_bytes : list ascii)
    (vision_client : client) : io text :=
  fun tr =>
    if negb PYMUPDF_OK then (Ok (T "PDF OCR requires `pip install pymupdf`"), tr)
    else
      match fitz_open file_bytes with
      | Err e => (Err e, tr)
      | Ok doc =>
          match for_pages vision_client doc [] tr with
          | (Ok pages, tr') => (Ok (join [LF; LF] pages), tr')
          | (Err e, tr') => (Err e, tr')
          end
      end.

(** A page without native text: [native.strip()] is empty. *)
Definition blank (pg : page) : bool := negb (truthy (VStr (strip (get_text pg)))).

(** The request that sends a page to the vision client: the page
    rendered at 200 dots per inch, as a data URL. *)
Definition ocr_request (pg : page) : request :=
  let pix := get_pixmap pg 200 in
  ocr_messages
    (pil_to_data_url (frombytes (T "RGB") (width pix, height pix) (samples pix))).

(** The pages of a document extracted one after the other, each on its
    own: [pages_texts c tr doc texts tr'] holds when, starting with the
    requests [tr], the pages of [doc] give the texts [texts] in page
    order and leave the requests [tr']. *)
Inductive pages_texts (vision_client : client)
  : trace -> list page -> list text -> trace -> Prop :=
| pages_done (tr : trace) : pages_texts vision_client tr [] [] tr
| pages_next (tr tr1 tr2 : trace) (pg : page) (t : text)
    (doc : list page) (texts : list text) :
    page_text vision_client pg tr = (Ok t, tr1) ->
    pages_texts vision_client tr1 doc texts tr2 ->
    pages_texts vision_client tr (pg :: doc) (t :: texts) tr2.
End Extraction.

(** ** The conversation *)

(** The instruction template.  Its typographic quotes, rupee sign, minus
    sign and multiplication sign are written in UTF-8 here; the template
    is only ever concatenated and compared. *)
Definition SYSTEM_PROMPT : text :=
  T "
You are a Health Insurance Claim Assistant.

INPUTS YOU ALWAYS USE
- POLICY (JSON): {policy_ctx}
- BILL TEXT (raw text): {bill_text}

GREETING
- Detect the patient name from BILL TEXT (look for “Patient Name”, “Name”, or “Mr/Ms …”).
- If the user just says hi/hello/thanks, reply with “Hi <Name>, …” (or “Hi,” if name not found) and a short friendly line asking how you can help. No analysis.

INTENT ROUTING (pick exactly one path)

A) ROOM-ONLY QUESTIONS
(Triggers when the user asks about room/room rent/room charges/room cap/bed/ward/sharing/single/private.)
Return EXACTLY this structure (one item per line; no extra commentary):

1. Eligible room: <EligibleType>; cap/day: ₹<CapPerDay or Not available>
2. Billed room: <BilledType or Not available>; rate/day: ₹<RatePerDay or Not available>; days: <Days or Not available>
3. Status: <within cap | over limit | Not available>
4. Extra you pay for room: ₹<RateDiff×Days or 0.00 or Not available>
5. Policy effect: <" ++ [DQ] ++
  T "Proportionate deduction applies" ++ [DQ] ++
  T " if policy.room.proportionate_deduction is true AND status is over limit; else " ++ [DQ] ++
  T "No proportionate deduction" ++ [DQ] ++
  T ">

Notes:
- “Extra you pay for room” = max(0, billed_rate_per_day − cap_per_day) × days (use only if both numbers exist; otherwise “Not available”).
- Do NOT print reduction factors or any long explanation.

B) MONEY QUESTIONS
(coverage, how much I pay, insurance pays, payable, estimate, breakdown)
Return EXACTLY this structure (no run-ons, Markdown list):

1. Insurance pays: ₹<InsurerPays>
2. You pay: ₹<PatientPays> which inclu
3. Breakdown:
   - Total bill: ₹<TotalBill>
   - Non-payables: ₹<NonPayables>, it includes insurance company won’t pay for which mentioned in policy
   - Room charges: ₹<RoomTotal> (within cap | over limit)
   - Co-pay (<CoPayPct>%): ₹<CoPayAmount> and add the Non Payables if any
   - Up to 3 other important items as “- Label: ₹Amount”

C) OTHER QUESTIONS
- Answer briefly in up to 3 bullets or 2 short sentences.

RULES (strict)
- Use values from POLICY + BILL TEXT only.
- If a value cannot be determined, write “Not available”.
- Do NOT include proportion factors, assumptions, or extra commentary.
- One list item per line; never join multiple points in one line.
- Money must be formatted like ₹12,345.00 (two decimals).
- Be concise and patient-friendly
- Non- payable in the insurance context means “not covered by insurance”.
".

(** The three kinds of message of a conversation. *)
Definition system_message (sys : text) : message := Message (T "system") (Text sys).
Definition user_message (s : text) : message := Message (T "user") (Text s).
Definition assistant_message (s : text) : message := Message (T "assistant") (Text s).

Section Chat.
(** A policy record is one entry of the loaded catalogue;
    [json.dumps] prints it. *)
Variable policy : Type.
Variable json_dumps : policy -> text.

(** [SYSTEM_PROMPT + f"\n\nPOLICY:\n{json.dumps(policy)}\n\nBILL:\n{bill_text}\n"] *)
Definition system_msg (pol : policy) (bill_text : text) : text :=
  SYSTEM_PROMPT ++ [LF; LF] ++ T "POLICY:" ++ [LF] ++ json_dumps pol
    ++ [LF; LF] ++ T "BILL:" ++ [LF] ++ bill_text ++ [LF].

(** The [if]/[else] on message 0: inserted in front, or its content
    overwritten in place. *)
Definition refresh (history : list message) (sys : text) : list message :=
  match history with
  | [] => [system_message sys]
  | m :: rest =>
      if negb (text_eqb (role m) (T "system"))
      then system_message sys :: history
      else Message (role m) (Text sys) :: rest
  end.

(** [chat_with_history]: the result, the history list as the call
    leaves it, and the requests made. *)
Definition chat_with_history (chat_client : client) (history : list message)
    (pol : policy) (bill_text user_input : text)
    : trace -> outcome text * list message * trace :=
  fun tr =>
    let sys := system_msg pol bill_text in
    let history := refresh history sys in
    let history := history ++ [user_message user_input] in
    match invoke chat_client history tr with
    | (Err e, tr') => (Err e, history, tr')
    | (Ok resp, tr') =>
        match _resp_text resp with
        | Err e => (Err e, history, tr')
        | Ok reply =>
            (Ok reply, history ++ [assistant_message reply], tr')
        end
    end.

(** The invariant of a conversation history for the system context
    [sys]: a history that is not empty starts with the system message
    holding [sys]. *)
Definition history_ok (sys : text) (history : list message) : Prop :=
  history = [] \/
  exists rest, history = system_message sys :: rest.
End Chat.

(** ** Loading the policies *)

Section Policy.

(** [json.load] on the contents of a file: the value read, or the
    exception of contents that are no JSON document. *)
Variable json_load : text -> outcome value.

End Policy.

(** ** Amounts *)

(** A Python [float] is a binary64 number. *)
Definition float : Type := spec_float.

Definition fzero : float := S754_zero false.
Definition fadd : float -> float -> float := SFadd 53 1024.

(** The float nearest to [n / d], ties to even, for [0 <= n] and [0 < d]:
    the quotient is taken with more than 55 bits and one more bit
    records whether the division left a remainder. *)
Definition float_of_ratio (n d : Z) : float :=
  if (n =? 0)%Z then fzero
  else
    let s := Z.max 0 (57 + Z.log2 d - Z.log2 n) in
    let q := (n * 2 ^ s / d)%Z in
    let sticky := if ((n * 2 ^ s) mod d =? 0)%Z then 0%Z else 1%Z in
    binary_normalize 53 1024 (2 * q + sticky) (- (s + 1)) false.

Definition float_of_Z (n : Z) : float := float_of_ratio n 1.

Definition digits_value (s : text) : Z :=
  fold_left (fun acc c => (10 * acc + Z.of_nat (code c - 48))%Z) s 0%Z.

(** [float(tok)] for a token of digits with an optional point and
    fraction digits, the only texts the parsers convert. *)
Definition py_float (tok : text) : float :=
  match split_once (T ".") tok with
  | Some (int_part, frac) =>
      float_of_ratio (digits_value (int_part ++ frac)) (10 ^ Z.of_nat (length frac))
  | None => float_of_ratio (digits_value tok) 1
  end.

(** [sum(values)]: addition from the left, starting from zero. *)
Definition py_sum (values : list float) : float := fold_left fadd values fzero.

(** ** The bill parsers *)

(** [\b\d+(?:\.\d{1,2})?\b] *)
Definition number : re :=
  seq [Bnd; Rep isdecimal 1 None;
       Opt (seq [chr "."; Rep isdecimal 1 (Some 2)]); Bnd].

Definition spaces : re := Rep isspace 0 None.

(** [net\s*payable], [amount\s*payable], [grand\s*total], [\btotal\b],
    all under [re.I]. *)
Definition patterns : list re :=
  [ seq [lit_i (T "net"); spaces; lit_i (T "payable")];
    seq [lit_i (T "amount"); spaces; lit_i (T "payable")];
    seq [lit_i (T "grand"); spaces; lit_i (T "total")];
    seq [Bnd; lit_i (T "total"); Bnd] ].

(** A loop whose body may return: the first value returned. *)
Fixpoint for_return (A B : Type) (body : A -> option B) (l : list A) : option B :=
  match l with
  | [] => None
  | a :: l' =>
      match body a with
      | Some b => Some b
      | None => for_return body l'
      end
  end.

(** The body of the inner loop of [parse_total_amount]. *)
Definition total_on_line (p : re) (ln : text) : option float :=
  if search p ln then
    match findall number ln with
    | [] => None
    | vals => Some (py_float (last vals []))
    end
  else None.

Definition parse_total_amount (text_ : text) : option float :=
  let lines := splitlines text_ in
  for_return (fun p => for_return (total_on_line p) (rev lines)) patterns.



(** [rf'\b{kw}\b'] under [re.I], for a plain keyword. *)
Definition keyword_pattern (kw : text) : re := seq [Bnd; lit_i kw; Bnd].

(** The keyword [kw] stands in the line [ln] as a whole word, case
    ignored: a part of the line that folds to the same text as the
    keyword, with a word boundary in front of it and one behind it. *)
Definition whole_word (kw ln : text) : Prop :=
  exists before w after,
    ln = before ++ w ++ after /\
    map lower w = map lower kw /\
    boundary (last_char before, w ++ after) = true /\
    boundary (last_char (before ++ w), after) = true.

Definition hit : Type := text * float.

(** The body of the inner loop of [sum_non_payables]. *)
Definition hits_on_line (kw : text) (hits : list hit) (ln : text) : list hit :=
  if search (keyword_pattern kw) ln then
    match findall number ln with
    | [] => hits
    | nums => hits ++ [(kw, py_float (last nums []))]
    end
  else hits.

(** What one line adds for one keyword: nothing, or one hit. *)
Definition hit_on (kw : text) (ln : text) : list hit := hits_on_line kw [] ln.

Definition sum_non_payables (text_ : text) (keywords : list text)
    : float * list hit :=
  let hits :=
    fold_left (fun hits kw => fold_left (hits_on_line kw) (splitlines text_) hits)
              keywords [] in
  (py_sum (map snd hits), hits).

(** ** Shapes of results *)

(** A token as the number pattern matches it: digits, and then nothing or
    a point and one or two digits.  These are texts [float] converts. *)
Definition number_token (tok : text) : bool :=
  let n := span isdecimal tok in
  (1 <=? n) &&
  match skipn n tok with
  | [] => true
  | p :: frac =>
      Ascii.eqb "." p && forallb isdecimal frac
      && (1 <=? length frac) && (length frac <=? 2)
  end.

(** A float that is zero, positive or plus infinity: no minus sign and
    no NaN. *)
Definition nonneg (v : float) : bool :=
  match v with
  | S754_zero false | S754_infinity false | S754_finite false _ _ => true
  | _ => false
  end.

Definition has_role (r : text) (m : message) : bool := text_eqb (role m) r.

(** The messages after message 0 of a conversation: user messages, each
    followed by at most one assistant message. *)
Fixpoint turns_ok (turns : list message) : bool :=
  match turns with
  | [] => true
  | m :: rest =>
      has_role (T "user") m &&
      match rest with
      | a :: rest' =>
          if has_role (T "assistant") a then turns_ok rest' else turns_ok rest
      | [] => true
      end
  end.

(** A conversation: empty, or a system message and then turns. *)
Definition conversation_ok (history : list message) : bool :=
  match history with
  | [] => true
  | m :: turns => has_role (T "system") m && turns_ok turns
  end.

End Main.

(** * app.py *)

Module App.

(** The handler of the reset button: [st.session_state.chat_history = []]. *)
Definition reset (chat_history : list Main.message) : list Main.message := [].

(** [\s*(?<!^)(?=(\d+\.\s))] *)
Definition numbered_point : re :=
  seq [Rep isspace 0 None; NotBegin;
       Ahead (seq [Rep isdecimal 1 None; chr "."; Cls isspace])].

(** [\.\s+] *)
Definition period_spaces : re := seq [chr "."; Rep isspace 1 None].

(** [\n{3,}] *)
Definition blank_lines : re := Rep (Ascii.eqb LF) 3 None.

(** The five steps of [fmt_money_blocks], in order. *)

(** 1) each numbered item on its own line *)
Definition numbered_on_lines (s : text) : text := sub numbered_point [LF] s.

(** 2) one space after a period *)
Definition periods_spaced (s : text) : text := sub period_spaces (T ". ") s.

(** 3) "3. Breakdown:" on its own line *)
Definition breakdown_on_line (s : text) : text :=
  replace (T "3. Breakdown:") (T "3. Breakdown:" ++ [LF]) s.

(** 4) bullets after "Breakdown:" *)
Definition bullets (s : text) : text :=
  if contains (T "Breakdown:") s then
    match split_once (T "Breakdown:") s with
    | Some (head, tail) =>
        let tail := replace (T " - ") (LF :: T "   - ") tail in
        head ++ T "Breakdown:" ++ tail
    | None => s
    end
  else s.

(** 5) no duplicate blank lines *)
Definition blank_lines_merged (s : text) : text := sub blank_lines [LF; LF] s.

Definition fmt_money_blocks (txt : text) : text :=
  let s := strip txt in
  let s := numbered_on_lines s in
  let s := periods_spaced s in
  let s := breakdown_on_line s in
  let s := bullets s in
  let s := blank_lines_merged s in
  s.

(** The length of the match of [period_spaces] at the start of [s], zero
    when there is none: a period and the white space after it. *)
Definition period_match (s : text) : nat :=
  match s with
  | c :: s' =>
      if Ascii.eqb "." c then
        match span isspace s' with
        | O => O
        | S n => S (S n)
        end
      else O
  | [] => O
  end.

(** The same for [blank_lines]: a run of three line feeds or more. *)
Definition blank_match (s : text) : nat :=
  if 3 <=? span (Ascii.eqb LF) s then span (Ascii.eqb LF) s else O.




(** No three line feeds in a row in [s]: step 5 has nothing to change. *)
Fixpoint calm (s : text) : bool :=
  match s with
  | [] => true
  | _ :: s' => (blank_match s =? 0) && calm s'
  end.

(** The characters of a text that are not white space, in order. *)
Definition ink (s : text) : text := filter (fun c => negb (isspace c)) s.

(** ** The session and its buttons *)

(** The entries of [st.session_state] that the handlers read and
    write. *)
Record session : Type := Session {
  chat_history : list Main.message;   (* st.session_state.chat_history *)
  bill_text : text;                   (* st.session_state.bill_text *)
  composer : option text;             (* st.session_state.get("composer") *)
  clear_composer : bool               (* st.session_state["__clear_composer"] *)
}.

(** What a handler shows: nothing, [st.warning], [st.success] or
    [st.error] with the exception caught. *)
Inductive notice : Type :=
| Quiet
| Warning
| Success
| Failure (e : exn).

(** The composer is emptied at the start of a run when the flag is
    set. *)
Definition begin_run (st : session) : session :=
  if clear_composer st
  then Session (chat_history st) (bill_text st) (Some []) false
  else st.

(** [if reset:] *)
Definition reset_click (st : session) : session :=
  Session (reset (chat_history st)) (bill_text st) (composer st) true.

(** [if clear_clicked:] *)
Definition clear_click (st : session) : session :=
  Session (chat_history st) [] (composer st) (clear_composer st).

Section Send.
Variable policy : Type.
Variable json_dumps : policy -> text.

(** [if send:] with the policy chosen in the sidebar. *)
Definition send_click (chat_client : Main.client) (pol : policy) (st : session)
    : Main.trace -> session * notice * Main.trace :=
  fun tr =>
    let text_ := strip (match composer st with Some s => s | None => [] end) in
    match text_ with
    | [] => (st, Quiet, tr)
    | _ :: _ =>
        match Main.chat_with_history json_dumps chat_client (chat_history st) pol
                (bill_text st) text_ tr with
        | (Ok _, history, tr') =>
            (Session history (bill_text st) (composer st) true, Quiet, tr')
        | (Err e, history, tr') =>
            (Session history (bill_text st) (composer st) (clear_composer st),
             Failure e, tr')
        end
    end.
End Send.

(** An uploaded file: its MIME type and its bytes. *)
Record upload : Type := Upload { type_ : text; data : list ascii }.

Section Extract.
Variable image : Type.
Variable pil_to_data_url : image -> text.
Variable frombytes : text -> Z * Z -> list ascii -> image.
Variable fitz_open : list ascii -> outcome (list Main.page).
(** [Image.open(up).convert("RGB")] *)
Variable image_open : list ascii -> outcome image.
Variable PYMUPDF_OK : bool.

(** [if extract_clicked:] *)
Definition extract_click (up : option upload) (vision_client : Main.client)
    (st : session) : Main.trace -> session * notice * Main.trace :=
  fun tr =>
    match up with
    | None => (st, Warning, tr)
    | Some u =>
        let result :=
          if startswith (T "image/") (type_ u) then
            match image_open (data u) with
            | Ok img =>
                Main.extract_text_from_image pil_to_data_url img vision_client tr
            | Err e => (Err e, tr)
            end
          else
            Main.extract_text_from_pdf pil_to_data_url frombytes fitz_open
              PYMUPDF_OK (data u) vision_client tr in
        match result with
        | (Ok t, tr') =>
            (Session (chat_history st) t (composer st) (clear_composer st),
             Success, tr')
        | (Err e, tr') => (st, Failure e, tr')
        end
    end.
End Extract.

End App.

(** * Properties *)

(** ** Stripping *)

Lemma lstrip_head (s : text) :
  match lstrip s with c :: _ => isspace c = false | [] => True end.
Proof.
  induction s as [|c s IH]; simpl; [exact I|].
  destruct (isspace c) eqn:E; [exact IH | exact E].
Qed.

Lemma lstrip_fixed (s : text) :
  match s with c :: _ => isspace c = false | [] => True end -> lstrip s = s.
Proof. destruct s as [|c s]; simpl; [reflexivity|]. intros ->. reflexivity. Qed.

Lemma lstrip_idem (s : text) : lstrip (lstrip s) = lstrip s.
Proof. apply lstrip_fixed, lstrip_head. Qed.

(** [lstrip] removes a run of spaces in front. *)
Lemma lstrip_split (s : text) :
  exists w, s = w ++ lstrip s /\ forallb isspace w = true.
Proof.
  induction s as [|c s (w & E & W)]; simpl.
  - exists []. split; reflexivity.
  - destruct (isspace c) eqn:C.
    + exists (c :: w). simpl. rewrite C, W. split; [congruence | reflexivity].
    + exists []. split; reflexivity.
Qed.

Lemma rstrip_split (s : text) :
  exists w, s = rstrip s ++ w /\ forallb isspace w = true.
Proof.
  unfold rstrip. destruct (lstrip_split (rev s)) as (w & E & W).
  exists (rev w). split.
  - rewrite <- rev_app_distr, <- E, rev_involutive. reflexivity.
  - rewrite forallb_forall in *. intros x Hx. apply W, in_rev, Hx.
Qed.

Lemma rstrip_idem (s : text) : rstrip (rstrip s) = rstrip s.
Proof. unfold rstrip. rewrite rev_involutive, lstrip_idem. reflexivity. Qed.

(** Stripping on the right keeps a stripped left end. *)
Lemma rstrip_head (s : text) :
  match s with c :: _ => isspace c = false | [] => True end ->
  match rstrip s with c :: _ => isspace c = false | [] => True end.
Proof.
  intros H. destruct (rstrip_split s) as (w & E & W).
  destruct (rstrip s) as [|c r] eqn:R; [exact I|].
  rewrite E in H. exact H.
Qed.

Lemma strip_idem (s : text) : strip (strip s) = strip s.
Proof.
  unfold strip.
  rewrite (lstrip_fixed (rstrip (lstrip s))).
  - apply rstrip_idem.
  - apply rstrip_head, lstrip_head.
Qed.

(** A stripped text neither starts nor ends with a space. *)
Lemma strip_ends (s : text) :
  match strip s with c :: _ => isspace c = false | [] => True end /\
  match rev (strip s) with c :: _ => isspace c = false | [] => True end.
Proof.
  split.
  - apply rstrip_head, lstrip_head.
  - unfold strip, rstrip. rewrite rev_involutive. apply lstrip_head.
Qed.

(** ** The response normalizer *)

Lemma return_strip_stripped (v : value) : returns_stripped (Main.return_strip v).
Proof.
  intros s. unfold Main.return_strip. destruct v; simpl; try discriminate.
  intros [= <-]. eexists; reflexivity.
Qed.

Lemma falls_stripped : returns_stripped Falls.
Proof. intros s; discriminate. Qed.

Lemma eval_stripped (A : Type) (o : outcome A) (k : A -> flow text) :
  (forall a, returns_stripped (k a)) -> returns_stripped (eval o k).
Proof. intros H. destruct o; simpl; [apply H | intros s; discriminate]. Qed.

Lemma then_stripped (s1 s2 : flow text) :
  returns_stripped s1 -> returns_stripped s2 -> returns_stripped (s1 ;; s2).
Proof. intros H1 H2. destruct s1; simpl; auto. Qed.

Create HintDb stripped.
#[local] Hint Resolve return_strip_stripped falls_stripped eval_stripped
  then_stripped : stripped.

Lemma by_attributes_stripped (resp : value) :
  returns_stripped (Main.by_attributes resp).
Proof.
  unfold Main.by_attributes.
  destruct (getattr resp (T "choices")) as [choices|]; auto with stripped.
  destruct (truthy choices); auto with stripped.
  apply eval_stripped; intros ch. apply then_stripped.
  - destruct (getattr ch (T "message")) as [m|]; auto with stripped.
    destruct (getattr m (T "content")); auto with stripped.
  - destruct (getattr ch (T "text")); auto with stripped.
Qed.

Lemma by_keys_stripped (resp : value) : returns_stripped (Main.by_keys resp).
Proof.
  unfold Main.by_keys.
  destruct resp; auto with stripped.
  destruct (assoc (T "choices") d) as [choices|]; auto with stripped.
  apply eval_stripped; intros ch. apply then_stripped.
  - apply eval_stripped; intros [|]; auto with stripped.
    apply eval_stripped; intros m. destruct m; auto with stripped.
  - apply eval_stripped; intros [|]; auto with stripped.
Qed.

Lemma by_content_stripped (resp : value) : returns_stripped (Main.by_content resp).
Proof.
  unfold Main.by_content. destruct (getattr resp (T "content")); auto with stripped.
Qed.

Lemma try_block_stripped (resp : value) : returns_stripped (Main.try_block resp).
Proof.
  unfold Main.try_block.
  auto using by_attributes_stripped, by_keys_stripped, by_content_stripped
    with stripped.
Qed.

(** The last line of [_resp_text] is outside the [try] block and cannot
    fail on these values. *)
Lemma resp_text_returns (resp : value) : exists s, Main._resp_text resp = Ok s.
Proof.
  unfold Main._resp_text. destruct (Main.try_block resp); eexists; reflexivity.
Qed.





(** ** Loading the policies *)



(** ** The conversation *)

Lemma text_eqb_eq (a b : text) : text_eqb a b = true <-> a = b.
Proof.
  unfold text_eqb. destruct (list_eq_dec ascii_dec a b); split; congruence.
Qed.

Section ChatProperties.
Variable policy : Type.
Variable json_dumps : policy -> text.

(** Message 0 after the [if]/[else]: always the system message with the
    new context, in front of the turns the history had. *)
Lemma refresh_shape (history : list Main.message) (sys : text) :
  exists turns,
    Main.refresh history sys = Main.system_message sys :: turns /\
    length history <= S (length turns) /\
    (history = [] -> turns = []) /\
    (forall m rest,
       history = m :: rest -> Main.role m = T "system" -> turns = rest) /\
    (forall m rest,
       history = m :: rest -> Main.role m <> T "system" -> turns = history).
Proof.
  destruct history as [|m rest]; simpl.
  - exists []. repeat split; simpl; try lia; congruence.
  - destruct (text_eqb (Main.role m) (T "system")) eqn:E; simpl.
    + apply text_eqb_eq in E. exists rest. unfold Main.system_message.
      rewrite E. repeat split; simpl; try lia; congruence.
    + exists (m :: rest). repeat split; simpl; try lia; try congruence.
      intros m' rest' [= <- <-] R. apply text_eqb_eq in R. congruence.
Qed.


(** What a call does, by the answer of the client. *)
Lemma chat_with_history_eq (chat_client : Main.client)
    (history : list Main.message) (pol : policy) (bill_text user_input : text)
    (tr : Main.trace) :
  let sent :=
    Main.refresh history (Main.system_msg json_dumps pol bill_text)
      ++ [Main.user_message user_input] in
  Main.chat_with_history json_dumps chat_client history pol bill_text user_input tr =
    match chat_client tr sent with
    | Err e => (Err e, sent, tr ++ [sent])
    | Ok resp =>
        match Main._resp_text resp with
        | Ok reply => (Ok reply, sent ++ [Main.assistant_message reply], tr ++ [sent])
        | Err e => (Err e, sent, tr ++ [sent])
        end
    end.
Proof.
  unfold Main.chat_with_history, Main.invoke. simpl.
  destruct (chat_client tr _); reflexivity.
Qed.


(** C8.  After a call the history starts with the system message that
    holds the context of that call, whatever the history was before and
    whatever the client answered; the reset handler leaves the empty
    history. *)
Theorem history_invariant (chat_client : Main.client)
    (history : list Main.message) (pol : policy) (bill_text user_input : text)
    (tr : Main.trace) :
  let after :=
    snd (fst (Main.chat_with_history json_dumps chat_client history pol
                bill_text user_input tr)) in
  after <> [] /\
  Main.history_ok (Main.system_msg json_dumps pol bill_text) after /\
  App.reset history = [] /\
  Main.history_ok (Main.system_msg json_dumps pol bill_text) (App.reset history).
Proof.
  intros after. unfold after. rewrite chat_with_history_eq.
  destruct (refresh_shape history (Main.system_msg json_dumps pol bill_text))
    as (turns & E & _).
  rewrite E.
  destruct (chat_client tr _) as [resp|e]; [destruct (Main._resp_text resp)|];
    simpl; (split; [discriminate|]);
    (split; [right; eexists; reflexivity|]);
    (split; [reflexivity | left; reflexivity]).
Qed.

(** C10.  When the client raises, the exception leaves the call and the
    history keeps what the call did before: the rebuilt system message in
    front and the new user message at the end.  The history is not what
    it was before the call. *)
Theorem chat_with_history_not_atomic (chat_client : Main.client)
    (history : list Main.message) (pol : policy) (bill_text user_input : text)
    (tr : Main.trace) (e : exn) :
  let sys := Main.system_msg json_dumps pol bill_text in
  chat_client tr (Main.refresh history sys ++ [Main.user_message user_input])
    = Err e ->
  exists turns,
    Main.chat_with_history json_dumps chat_client history pol bill_text user_input tr =
      (Err e,
       Main.system_message sys :: turns ++ [Main.user_message user_input],
       tr ++ [Main.system_message sys :: turns ++ [Main.user_message user_input]]) /\
    (history = [] -> turns = []) /\
    (forall m rest,
       history = m :: rest -> Main.role m = T "system" -> turns = rest) /\
    Main.system_message sys :: turns ++ [Main.user_message user_input] <> history.
Proof.
  intros sys H. rewrite chat_with_history_eq. fold sys. rewrite H.
  destruct (refresh_shape history sys) as (turns & E & L & T0 & T1 & _).
  exists turns. rewrite E. split; [reflexivity|].
  split; [exact T0|]. split; [exact T1|].
  intros C. rewrite <- C in L. simpl in L. rewrite length_app in L. simpl in L. lia.
Qed.

End ChatProperties.


Lemma chat_with_history_not_atomic_witness :
  let dumps (_ : unit) := T "{}" in
  let client : Main.client := fun _ _ => Err (ServiceError (T "down")) in
  let sys := Main.system_msg dumps tt (T "bill") in
  Main.chat_with_history dumps client [] tt (T "bill") (T "hello") [] =
    (Err (ServiceError (T "down")),
     [Main.system_message sys; Main.user_message (T "hello")],
     [[Main.system_message sys; Main.user_message (T "hello")]]).
Proof.
  intros dumps client sys.
  destruct (chat_with_history_not_atomic dumps client [] tt (T "bill") (T "hello") []
              (e := ServiceError (T "down")) eq_refl)
    as (turns & E & T0 & _).
  rewrite E, (T0 eq_refl). reflexivity.
Defined.

(** ** The bill parsers *)

(** A loop with an early return gives the value of the first element on
    which the body returns. *)
Lemma for_return_some (A B : Type) (body : A -> option B) (l : list A) (b : B) :
  Main.for_return body l = Some b <->
  exists l1 a l2,
    l = l1 ++ a :: l2 /\ (forall x, In x l1 -> body x = None) /\ body a = Some b.
Proof.
  induction l as [|x l IH]; simpl.
  - split; [discriminate|]. intros (l1 & a & l2 & E & _). destruct l1; discriminate.
  - destruct (body x) as [b'|] eqn:Bx.
    + split.
      * intros [= ->]. exists [], x, l. repeat split; [intros y []| exact Bx].
      * intros (l1 & a & l2 & E & N & S).
        destruct l1 as [|y l1]; simpl in E; injection E as E1 E2; subst.
        -- congruence.
        -- rewrite (N y (or_introl eq_refl)) in Bx. discriminate.
    + rewrite IH. split.
      * intros (l1 & a & l2 & -> & N & S). exists (x :: l1), a, l2.
        repeat split; [|exact S]. intros y [<-|Hy]; [exact Bx | apply N, Hy].
      * intros (l1 & a & l2 & E & N & S).
        destruct l1 as [|y l1]; simpl in E; injection E as E1 E2; subst.
        -- congruence.
        -- exists l1, a, l2. repeat split; [|exact S].
           intros z Hz. apply N. right. exact Hz.
Qed.



(** What the body of the inner loop returns on one line. *)
Lemma total_on_line_some (p : re) (ln : text) (v : Main.float) :
  Main.total_on_line p ln = Some v <->
  search p ln = true /\ findall Main.number ln <> [] /\
  v = Main.py_float (last (findall Main.number ln) []).
Proof.
  unfold Main.total_on_line. destruct (search p ln).
  - destruct (findall Main.number ln) as [|t ts].
    + split; [discriminate|]. intros (_ & N & _). congruence.
    + split.
      * intros [= <-]. repeat split. discriminate.
      * intros (_ & _ & ->). reflexivity.
  - split; [discriminate|]. intros (F & _). discriminate.
Qed.



(** *** Searching a keyword *)

Lemma last_char_snoc (s : text) (c : ascii) : last_char (s ++ [c]) = Some c.
Proof. unfold last_char. rewrite rev_app_distr. reflexivity. Qed.

Lemma run_seq_cons (R : Type) (a : re) (rs : list re) (k : pos -> option R) (p : pos) :
  run (seq (a :: rs)) k p = run a (run (seq rs) k) p.
Proof. destruct rs; reflexivity. Qed.

(** A literal text matches, case ignored, the part of the subject that
    folds to the same text. *)
Lemma run_lit_i (R : Type) (kw : text) (k : pos -> option R) (x : R) :
  forall before s,
    run (lit_i kw) k (last_char before, s) = Some x <->
    exists w rest,
      s = w ++ rest /\ map lower w = map lower kw /\
      k (last_char (before ++ w), rest) = Some x.
Proof.
  unfold lit_i. induction kw as [|a kw IH]; intros before s.
  - cbn [map seq run]. split.
    + intros H. exists [], s. rewrite app_nil_r. repeat split. exact H.
    + intros (w & rest & -> & W & H). destruct w; [|discriminate].
      rewrite app_nil_r in H. exact H.
  - cbn [map]. rewrite run_seq_cons. unfold chr_i at 1. cbn [run fst snd].
    destruct s as [|c s].
    + split; [discriminate|]. intros (w & rest & E & W & _).
      destruct w; [discriminate|]. discriminate.
    + destruct (Ascii.eqb (lower c) (lower a)) eqn:C.
      * apply Ascii.eqb_eq in C. rewrite <- (last_char_snoc before c), IH. split.
        -- intros (w & rest & -> & W & H). exists (c :: w), rest.
           cbn [map app]. rewrite C, W. repeat split.
           rewrite <- app_assoc in H. exact H.
        -- intros (w & rest & E & W & H). destruct w as [|c' w]; [discriminate|].
           injection E as <- ->. injection W as _ W. exists w, rest.
           rewrite <- app_assoc. repeat split; assumption.
      * split; [discriminate|]. intros (w & rest & E & W & _).
        destruct w as [|c' w]; [discriminate|].
        injection E as <- ->. injection W as W _.
        rewrite W, Ascii.eqb_refl in C. discriminate.
Qed.

(** The keyword pattern matches at a position exactly when the keyword
    stands there between two word boundaries. *)
Lemma keyword_pattern_here (kw before s : text) :
  (exists n, match_len (Main.keyword_pattern kw) false (last_char before, s) = Some n) <->
  exists w rest,
    s = w ++ rest /\ map lower w = map lower kw /\
    boundary (last_char before, s) = true /\
    boundary (last_char (before ++ w), rest) = true.
Proof.
  unfold match_len, Main.keyword_pattern.
  change (seq [Bnd; lit_i kw; Bnd]) with (Seq Bnd (Seq (lit_i kw) Bnd)).
  cbn [run]. destruct (boundary (last_char before, s)) eqn:B.
  - split.
    + intros (n & H). apply run_lit_i in H. destruct H as (w & rest & E & W & H).
      exists w, rest. repeat split; try assumption.
      destruct (boundary (last_char (before ++ w), rest)); [reflexivity | discriminate].
    + intros (w & rest & E & W & _ & B').
      eexists. apply run_lit_i. exists w, rest. repeat split; try assumption.
      rewrite B'. reflexivity.
  - split; [intros (n & H); discriminate|].
    intros (w & rest & _ & _ & C & _). discriminate.
Qed.

(** A search succeeds when the pattern matches at some position. *)
Lemma search_from_spec (r : re) (s : text) :
  forall before,
    search_from r (last_char before) s = true <->
    exists a b,
      s = a ++ b /\
      exists n, match_len r false (last_char (before ++ a), b) = Some n.
Proof.
  induction s as [|c s IH]; intros before; cbn [search_from].
  - destruct (match_len r false (last_char before, ([] : text))) as [n|] eqn:M.
    + split; [|reflexivity]. intros _. exists [], []. rewrite (app_nil_r before).
      split; [reflexivity|]. exists n. exact M.
    + split; [discriminate|]. intros (a & b & E & n & H).
      symmetry in E. apply app_eq_nil in E. destruct E as [-> ->].
      rewrite app_nil_r in H. discriminate (eq_trans (eq_sym H) M).
  - destruct (match_len r false (last_char before, (c :: s : text))) as [n|] eqn:M.
    + split; [|reflexivity]. intros _. exists [], (c :: s). rewrite (app_nil_r before).
      split; [reflexivity|]. exists n. exact M.
    + rewrite <- (last_char_snoc before c), IH. split.
      * intros (a & b & -> & n & H). exists (c :: a), b. split; [reflexivity|].
        exists n. rewrite <- app_assoc in H. exact H.
      * intros (a & b & E & n & H). destruct a as [|c' a].
        -- rewrite app_nil_r in H. simpl in E. subst b.
           discriminate (eq_trans (eq_sym H) M).
        -- injection E as <- ->. exists a, b. split; [reflexivity|].
           exists n. rewrite <- app_assoc. exact H.
Qed.

(** The search of [sum_non_payables] finds the whole-word occurrences of
    the keyword, case ignored. *)
Lemma search_keyword (kw ln : text) :
  search (Main.keyword_pattern kw) ln = true <-> Main.whole_word kw ln.
Proof.
  unfold search, Main.whole_word.
  change None with (last_char []). rewrite search_from_spec. split.
  - intros (a & b & -> & H). apply keyword_pattern_here in H.
    destruct H as (w & rest & -> & W & B1 & B2).
    exists a, w, rest. repeat split; assumption.
  - intros (before & w & after & -> & W & B1 & B2).
    exists before, (w ++ after). split; [reflexivity|].
    apply keyword_pattern_here. exists w, after. repeat split; assumption.
Qed.

(** The inner loop appends the hits of the lines, in line order. *)
Lemma hits_on_line_app (kw : text) (hits : list Main.hit) (ln : text) :
  Main.hits_on_line kw hits ln = hits ++ Main.hit_on kw ln.
Proof.
  unfold Main.hit_on, Main.hits_on_line.
  destruct (search (Main.keyword_pattern kw) ln); [|symmetry; apply app_nil_r].
  destruct (findall Main.number ln); [symmetry; apply app_nil_r | reflexivity].
Qed.

Lemma inner_loop_app (kw : text) (lines : list text) (hits : list Main.hit) :
  fold_left (Main.hits_on_line kw) lines hits =
  hits ++ flat_map (Main.hit_on kw) lines.
Proof.
  revert hits. induction lines as [|ln lines IH]; intros hits; simpl.
  - symmetry. apply app_nil_r.
  - rewrite IH, hits_on_line_app, <- app_assoc. reflexivity.
Qed.

Lemma outer_loop_app (lines : list text) (keywords : list text) (hits : list Main.hit) :
  fold_left (fun hits kw => fold_left (Main.hits_on_line kw) lines hits) keywords hits =
  hits ++ flat_map (fun kw => flat_map (Main.hit_on kw) lines) keywords.
Proof.
  revert hits. induction keywords as [|kw keywords IH]; intros hits; simpl.
  - symmetry. apply app_nil_r.
  - rewrite IH, inner_loop_app, <- app_assoc. reflexivity.
Qed.

(** The hit of a keyword on a line: the keyword with the last number of
    the line, when the line has the keyword and a number. *)
Lemma hit_on_spec (kw ln : text) :
  Main.hit_on kw ln =
    if search (Main.keyword_pattern kw) ln
       && negb (match findall Main.number ln with [] => true | _ => false end)
    then [(kw, Main.py_float (last (findall Main.number ln) []))]
    else [].
Proof.
  unfold Main.hit_on, Main.hits_on_line.
  destruct (search (Main.keyword_pattern kw) ln); [|reflexivity].
  destruct (findall Main.number ln); reflexivity.
Qed.



(** ** Text extraction from a PDF *)

Section ExtractionProperties.
Variable image : Type.
Variable pil_to_data_url : image -> text.
Variable frombytes : text -> Z * Z -> list ascii -> image.
Variable fitz_open : list ascii -> outcome (list (Main.page)).
Variable vision_client : Main.client.

(** A page with native text is taken as it is, and nothing is sent. *)
Lemma page_text_native (pg : Main.page) (tr : Main.trace) :
  Main.blank pg = false ->
  Main.page_text pil_to_data_url frombytes vision_client pg tr
    = (Ok (Main.get_text pg), tr).
Proof.
  unfold Main.blank, Main.page_text. intros H.
  apply negb_false_iff in H. rewrite H. reflexivity.
Qed.

(** A page without native text is rendered at 200 dots per inch and sent
    to the vision client: one request, whatever the answer. *)
Lemma page_text_blank (pg : Main.page) (tr : Main.trace) :
  Main.blank pg = true ->
  let pix := Main.get_pixmap pg 200 in
  let img := frombytes (T "RGB") (Main.width pix, Main.height pix) (Main.samples pix) in
  Main.page_text pil_to_data_url frombytes vision_client pg tr
    = Main.extract_text_from_image pil_to_data_url img vision_client tr /\
  snd (Main.page_text pil_to_data_url frombytes vision_client pg tr)
    = tr ++ [Main.ocr_request pil_to_data_url frombytes pg].
Proof.
  unfold Main.blank, Main.page_text. intros H.
  apply negb_true_iff in H. rewrite H. simpl. split; [reflexivity|].
  unfold Main.extract_text_from_image, Main.invoke, Main.ocr_request.
  destruct (vision_client tr _); reflexivity.
Qed.

(** One page adds its request to the trace exactly when it is blank. *)
Lemma page_text_trace (pg : Main.page) (tr : Main.trace) :
  snd (Main.page_text pil_to_data_url frombytes vision_client pg tr)
    = tr ++ (if Main.blank pg
             then [Main.ocr_request pil_to_data_url frombytes pg] else []).
Proof.
  destruct (Main.blank pg) eqn:B.
  - apply (page_text_blank pg tr B).
  - rewrite (page_text_native pg tr B). simpl. symmetry. apply app_nil_r.
Qed.

(** The loop, when it ends well: the texts of the pages, in order, after
    the ones collected before. *)
Lemma for_pages_ok (doc : list Main.page) (pages : list text) (tr : Main.trace)
    (out : list text) (tr' : Main.trace) :
  Main.for_pages pil_to_data_url frombytes vision_client doc pages tr = (Ok out, tr') <->
  exists texts,
    Main.pages_texts pil_to_data_url frombytes vision_client tr doc texts tr' /\
    out = pages ++ texts.
Proof.
  revert pages tr. induction doc as [|pg doc IH]; intros pages tr; simpl.
  - split.
    + intros [= <- <-]. exists []. split; [constructor | symmetry; apply app_nil_r].
    + intros (texts & P & ->). inversion P; subst. rewrite app_nil_r. reflexivity.
  - destruct (Main.page_text _ _ _ pg tr) as [[t|e] tr1] eqn:E.
    + rewrite IH. split.
      * intros (texts & P & ->). exists (t :: texts). split.
        -- econstructor; eassumption.
        -- rewrite <- app_assoc. reflexivity.
      * intros (texts & P & ->). inversion P; subst.
        match goal with H : Main.page_text _ _ _ pg tr = _ |- _ =>
          rewrite E in H; injection H as <- <- end.
        eexists. split; [eassumption|]. rewrite <- app_assoc. reflexivity.
    + split; [discriminate|].
      intros (texts & P & _). inversion P; subst.
      match goal with H : Main.page_text _ _ _ pg tr = _ |- _ =>
        rewrite E in H; discriminate end.
Qed.

(** The requests of a run are those of the blank pages, in page order. *)
Lemma pages_texts_trace (doc : list Main.page) (tr tr' : Main.trace) (texts : list text) :
  Main.pages_texts pil_to_data_url frombytes vision_client tr doc texts tr' ->
  tr' = tr ++ map (Main.ocr_request pil_to_data_url frombytes) (filter Main.blank doc) /\
  length texts = length doc.
Proof.
  induction 1 as [tr|tr tr1 tr2 pg t doc texts E _ [IH1 IH2]]; simpl.
  - split; [symmetry; apply app_nil_r | reflexivity].
  - pose proof (page_text_trace pg tr) as P. rewrite E in P. simpl in P.
    subst tr1. split; [|congruence].
    rewrite IH1, <- app_assoc. destruct (Main.blank pg); reflexivity.
Qed.

(** When the client answers every request for a blank page, the loop
    ends well. *)
Lemma for_pages_progress (doc : list Main.page) (pages : list text) (tr : Main.trace) :
  (forall tr0 pg, In pg doc -> Main.blank pg = true ->
     exists resp,
       vision_client tr0 (Main.ocr_request pil_to_data_url frombytes pg) = Ok resp) ->
  exists out tr',
    Main.for_pages pil_to_data_url frombytes vision_client doc pages tr = (Ok out, tr').
Proof.
  revert pages tr. induction doc as [|pg doc IH]; intros pages tr H; simpl.
  - eexists _, _. reflexivity.
  - assert (P : exists t tr1,
               Main.page_text pil_to_data_url frombytes vision_client pg tr = (Ok t, tr1)).
    { destruct (Main.blank pg) eqn:B.
      - destruct (H tr pg (or_introl eq_refl) B) as (resp & R).
        destruct (page_text_blank pg tr B) as (-> & _).
        unfold Main.extract_text_from_image, Main.invoke.
        unfold Main.ocr_request in R. simpl in R. rewrite R.
        destruct (resp_text_returns resp) as (s & ->).
        eexists _, _. reflexivity.
      - rewrite (page_text_native pg tr B). eexists _, _. reflexivity. }
    destruct P as (t & tr1 & ->). apply IH.
    intros tr0 pg' Hin. apply H. right. exact Hin.
Qed.

(** C6, as amended.  With the rendering library available,
    [extract_text_from_pdf] handles the pages one by one in page order.
    A page whose native text has a character that is no white space
    gives that text as it is and sends nothing; a page whose native text
    is empty or white space only is rendered at 200 dots per inch and
    goes through [extract_text_from_image].  The result is the texts of
    the pages in page order, joined by two line feeds, and the requests
    made are those of the blank pages, in page order. *)
Theorem extract_text_from_pdf_pages (file_bytes : list ascii)
    (doc : list Main.page) (tr : Main.trace) :
  fitz_open file_bytes = Ok doc ->
  let extract :=
    Main.extract_text_from_pdf pil_to_data_url frombytes fitz_open true
      file_bytes vision_client in
  (forall pg, Main.blank pg = true <-> strip (Main.get_text pg) = []) /\
  (forall pg tr0,
     Main.page_text pil_to_data_url frombytes vision_client pg tr0 =
       if Main.blank pg then
         let pix := Main.get_pixmap pg 200 in
         Main.extract_text_from_image pil_to_data_url
           (frombytes (T "RGB") (Main.width pix, Main.height pix) (Main.samples pix))
           vision_client tr0
       else (Ok (Main.get_text pg), tr0)) /\
  (forall out tr',
     extract tr = (Ok out, tr') <->
     exists texts,
       Main.pages_texts pil_to_data_url frombytes vision_client tr doc texts tr' /\
       out = join [LF; LF] texts) /\
  (forall out tr',
     extract tr = (Ok out, tr') ->
     tr' = tr ++ map (Main.ocr_request pil_to_data_url frombytes)
                     (filter Main.blank doc)) /\
  ((forall tr0 pg, In pg doc -> Main.blank pg = true ->
      exists resp,
        vision_client tr0 (Main.ocr_request pil_to_data_url frombytes pg) = Ok resp) ->
   exists out tr', extract tr = (Ok out, tr')).
Proof.
  intros O extract.
  assert (X : forall out tr',
             extract tr = (Ok out, tr') <->
             exists texts,
               Main.pages_texts pil_to_data_url frombytes vision_client tr doc texts tr' /\
               out = join [LF; LF] texts).
  { intros out tr'. unfold extract, Main.extract_text_from_pdf. simpl. rewrite O.
    destruct (Main.for_pages _ _ _ doc [] tr) as [[pages|e] tr1] eqn:E.
    - apply for_pages_ok in E. destruct E as (texts & P & ->). simpl. split.
      + intros [= <- <-]. exists texts. split; [exact P | reflexivity].
      + intros (texts' & P' & ->).
        assert (F : Main.for_pages pil_to_data_url frombytes vision_client doc [] tr
                    = (Ok ([] ++ texts'), tr')).
        { apply for_pages_ok. exists texts'. split; [exact P' | reflexivity]. }
        assert (G : Main.for_pages pil_to_data_url frombytes vision_client doc [] tr
                    = (Ok ([] ++ texts), tr1)).
        { apply for_pages_ok. exists texts. split; [exact P | reflexivity]. }
        rewrite F in G. injection G as -> ->. reflexivity.
    - split; [discriminate|]. intros (texts & P & _).
      assert (F : Main.for_pages pil_to_data_url frombytes vision_client doc [] tr
                  = (Ok ([] ++ texts), tr')).
      { apply for_pages_ok. exists texts. split; [exact P | reflexivity]. }
      rewrite F in E. discriminate. }
  split; [|split; [|split; [exact X | split]]].
  - intros pg. unfold Main.blank. simpl.
    destruct (strip (Main.get_text pg)); simpl; split; congruence.
  - intros pg tr0. destruct (Main.blank pg) eqn:B.
    + apply (page_text_blank pg tr0 B).
    + apply (page_text_native pg tr0 B).
  - intros out tr' E. apply X in E. destruct E as (texts & P & _).
    apply (pages_texts_trace P).
  - intros H. destruct (for_pages_progress doc [] tr H) as (out & tr' & F).
    exists (join [LF; LF] out), tr'.
    unfold extract, Main.extract_text_from_pdf. simpl. rewrite O, F. reflexivity.
Qed.

End ExtractionProperties.

(** A page whose native text is one space is not empty, and yet it is
    sent to the vision client: the request is made and the page gives the
    answer of the client, not its native text. *)
Lemma pdf_space_only_page_is_sent :
  let pg := Main.Page (T " ") (fun _ => Main.Pixmap 1 1 []) in
  let to_url (_ : unit) := T "data:image/png;base64," in
  let frombytes (_ : text) (_ : Z * Z) (_ : list ascii) := tt in
  let fitz_open (_ : list ascii) := Ok [pg] in
  let vision : Main.client := fun _ _ => Ok (VStr (T "scanned")) in
  Main.get_text pg <> [] /\
  Main.extract_text_from_pdf to_url frombytes fitz_open true [] vision []
    = (Ok (T "scanned"), [Main.ocr_messages (T "data:image/png;base64,")]) /\
  Main.extract_text_from_pdf to_url frombytes fitz_open true [] vision []
    <> (Ok (Main.get_text pg), []).
Proof. vm_compute. repeat split; discriminate. Qed.

Lemma extract_text_from_pdf_pages_witness :
  let native := Main.Page (T "Total 5") (fun _ => Main.Pixmap 1 1 []) in
  let scan := Main.Page [] (fun _ => Main.Pixmap 2 2 []) in
  let to_url (_ : unit) := T "data:image/png;base64," in
  let frombytes (_ : text) (_ : Z * Z) (_ : list ascii) := tt in
  let fitz_open (_ : list ascii) := Ok [native; scan; native] in
  let vision : Main.client := fun _ _ => Ok (VStr (T " scanned ")) in
  exists out,
    Main.extract_text_from_pdf to_url frombytes fitz_open true [] vision []
      = (Ok out, [Main.ocr_request to_url frombytes scan]).
Proof.
  intros native scan to_url frombytes fitz_open vision.
  destruct (proj2 (proj2 (proj2 (proj2
              (extract_text_from_pdf_pages to_url frombytes fitz_open vision
                 [] (doc := [native; scan; native]) [] eq_refl))))) as (out & tr' & E).
  { intros tr0 pg _ _. eexists. reflexivity. }
  exists out. rewrite E.
  rewrite (proj1 (proj2 (proj2 (proj2
             (extract_text_from_pdf_pages to_url frombytes fitz_open vision
                [] (doc := [native; scan; native]) [] eq_refl)))) out tr' E).
  reflexivity.
Defined.

(** ** The matcher on runs of one class *)

Lemma span_le (f : ascii -> bool) (s : text) : span f s <= length s.
Proof. induction s as [|c s IH]; simpl; [lia|]. destruct (f c); simpl; lia. Qed.

(** A greedy run without upper bound fails when the class does not run
    for [lo] characters. *)
Lemma rep_short (R : Type) (f : ascii -> bool) (k : pos -> option R) (s : text) :
  forall lo prev, span f s < lo -> rep f lo None k prev s = None.
Proof.
  induction s as [|c s IH]; intros lo prev H; simpl in *.
  - destruct lo; [lia | reflexivity].
  - destruct (f c); simpl.
    + destruct lo as [|lo]; [lia|]. rewrite IH by (simpl; lia). reflexivity.
    + destruct lo; [lia | reflexivity].
Qed.

(** It takes the whole run when the rest of the pattern accepts that. *)
Lemma rep_whole (R : Type) (f : ascii -> bool) (g : text -> option R) (s : text) :
  forall lo prev x,
    lo <= span f s ->
    g (skipn (span f s) s) = Some x ->
    rep f lo None (fun q => g (snd q)) prev s = Some x.
Proof.
  induction s as [|c s IH]; intros lo prev x L G; simpl in *.
  - assert (lo = 0) as -> by lia. exact G.
  - destruct (f c); simpl in *.
    + rewrite (IH (pred lo) (Some c) x); [reflexivity | lia | exact G].
    + assert (lo = 0) as -> by lia. exact G.
Qed.

Lemma length_skipn_span (f : ascii -> bool) (s : text) :
  length s - length (skipn (span f s) s) = span f s.
Proof. rewrite length_skipn. pose proof (span_le f s). lia. Qed.

(** Induction on the length of a text. *)
Lemma length_ind (A : Type) (P : list A -> Prop) :
  (forall s, (forall t, length t < length s -> P t) -> P s) -> forall s, P s.
Proof.
  intros H s. remember (length s) as n eqn:E. revert s E.
  induction n as [n IH] using lt_wf_ind. intros s ->.
  apply H. intros t L. exact (IH (length t) L t eq_refl).
Qed.

(** *** Occurrences and last characters *)



Lemma startswith_hd (w s : text) (a : ascii) :
  startswith (a :: w) s = true -> hd_error s = Some a.
Proof.
  destruct s as [|c s]; simpl; [discriminate|]. intros H.
  apply andb_true_iff in H. destruct H as [H _].
  apply Ascii.eqb_eq in H. congruence.
Qed.





(** ** Substitution with a pattern that looks only forward

    For a pattern whose match at a position depends on the text after the
    position only, and is never empty, [re.sub] is a plain left to right
    rewriting: [m s] is the length of the match at the start of [s], or
    zero. *)
Section LocalPattern.
Variable r : re.
Variable repl : text.
Variable m : text -> nat.
Hypothesis match_len_m :
  forall adv prev s,
    match_len r adv (prev, s) = match m s with O => None | S n => Some (S n) end.
Hypothesis m_le : forall s, m s <= length s.

Lemma matches_here_m (prev : option ascii) (s : text) :
  matches_here r (prev, s) = match m s with O => [] | S n => [S n] end.
Proof. unfold matches_here. rewrite match_len_m. destruct (m s); reflexivity. Qed.

Section ScanLocal.
Variable A : Type.
Variable on_match : text -> nat -> list A.
Variable on_char : ascii -> list A.

Lemma scan_prev (s : text) :
  forall n prev prev',
    scan r on_match on_char n prev s = scan r on_match on_char n prev' s.
Proof.
  induction s as [|c s IH]; intros n prev prev'; destruct n; simpl;
    rewrite ?(matches_here_m prev), ?(matches_here_m prev'); reflexivity.
Qed.

Lemma scan_skipn (n : nat) :
  forall s prev,
    n <= length s ->
    scan r on_match on_char n prev s = scan r on_match on_char O None (skipn n s).
Proof.
  induction n as [|n IH]; intros s prev L.
  - apply scan_prev.
  - destruct s as [|c s]; simpl in L; [lia|]. simpl skipn.
    rewrite <- (IH s (Some c)) by lia. reflexivity.
Qed.
End ScanLocal.

Lemma sub_step (s : text) :
  sub r repl s =
    match m s with
    | O => match s with [] => [] | c :: s' => c :: sub r repl s' end
    | S n => repl ++ sub r repl (skipn (S n) s)
    end.
Proof.
  unfold sub. destruct s as [|c s]; simpl; rewrite matches_here_m.
  - pose proof (m_le []) as L. simpl in L. destruct (m []); [reflexivity | lia].
  - pose proof (m_le (c :: s)) as L. simpl in L.
    destruct (m (c :: s)) as [|n]; simpl.
    + f_equal. apply scan_prev.
    + rewrite app_nil_r. f_equal. apply scan_skipn. lia.
Qed.


(** When a replacement starts like the text it replaces, substitution
    keeps the first character. *)
Lemma hd_sub (s : text) :
  (forall t, m t <> 0 -> hd_error repl = hd_error t) ->
  hd_error (sub r repl s) = hd_error s.
Proof.
  intros H. rewrite sub_step. destruct (m s) as [|n] eqn:M.
  - destruct s; reflexivity.
  - assert (E : hd_error repl = hd_error s) by (apply H; congruence).
    rewrite <- E. destruct repl as [|a rest].
    + pose proof (m_le s) as L. rewrite M in L.
      destruct s; [simpl in L; lia | discriminate].
    + reflexivity.
Qed.

Section KeepsShape.
Hypothesis repl_hd : forall t, m t <> 0 -> hd_error repl = hd_error t.




End KeepsShape.

End LocalPattern.

(** ** The patterns of the formatter *)

Lemma match_len_period_spaces (adv : bool) (prev : option ascii) (s : text) :
  match_len App.period_spaces adv (prev, s) =
    match App.period_match s with O => None | S n => Some (S n) end.
Proof.
  unfold match_len, App.period_spaces, App.period_match, seq, chr.
  cbn [run fst snd].
  destruct s as [|c s]; [reflexivity|].
  destruct (Ascii.eqb "." c); [|reflexivity].
  destruct (span isspace s) as [|n] eqn:E.
  - apply rep_short. lia.
  - apply (rep_whole isspace
             (fun t => let k := length (c :: s) - length t in
                       if adv && (k =? 0) then None else Some k)).
    + lia.
    + cbv zeta. simpl length. rewrite length_skipn.
      pose proof (span_le isspace s) as L. rewrite E in L. rewrite E.
      replace (S (length s) - (length s - S n)) with (S (S n)) by lia.
      simpl. rewrite andb_false_r. reflexivity.
Qed.

Lemma period_match_le (s : text) : App.period_match s <= length s.
Proof.
  unfold App.period_match. destruct s as [|c s]; [simpl; lia|].
  pose proof (span_le isspace s). cbn [length].
  destruct (Ascii.eqb "." c); [|lia].
  destruct (span isspace s); lia.
Qed.

Lemma match_len_blank_lines (adv : bool) (prev : option ascii) (s : text) :
  match_len App.blank_lines adv (prev, s) =
    match App.blank_match s with O => None | S n => Some (S n) end.
Proof.
  unfold match_len, App.blank_lines, App.blank_match.
  cbn [run fst snd].
  destruct (3 <=? span (Ascii.eqb LF) s) eqn:E.
  - apply Nat.leb_le in E.
    destruct (span (Ascii.eqb LF) s) as [|n] eqn:N; [lia|].
    apply (rep_whole (Ascii.eqb LF)
             (fun t => let k := length s - length t in
                       if adv && (k =? 0) then None else Some k)).
    + lia.
    + cbv zeta. rewrite N, <- N, length_skipn_span, N. simpl.
      rewrite andb_false_r. reflexivity.
  - apply Nat.leb_gt in E. apply rep_short. exact E.
Qed.

Lemma blank_match_le (s : text) : App.blank_match s <= length s.
Proof.
  unfold App.blank_match. pose proof (span_le (Ascii.eqb LF) s).
  destruct (3 <=? span (Ascii.eqb LF) s); lia.
Qed.

#[local] Arguments Ascii.eqb : simpl never.
#[local] Arguments isspace : simpl never.
#[local] Arguments isdecimal : simpl never.


(** *** Step 1 without numbered points *)







Lemma run_Seq (R : Type) (a b : re) (k : pos -> option R) (p : pos) :
  run (Seq a b) k p = run a (run b k) p.
Proof. reflexivity. Qed.

Lemma run_Rep (R : Type) (f : ascii -> bool) (lo : nat) (hi : option nat)
    (k : pos -> option R) (prev : option ascii) (s : text) :
  run (Rep f lo hi) k (prev, s) = rep f lo hi k prev s.
Proof. reflexivity. Qed.





(** *** Steps 2 and 5 as left to right rewriting *)

Lemma span_starts (f : ascii -> bool) (s : text) :
  span f s = 0 <-> starts f s = false.
Proof.
  destruct s as [|c s]; simpl; [tauto|].
  destruct (f c); split; congruence.
Qed.

Lemma starts_skipn_span (f : ascii -> bool) (s : text) :
  starts f (skipn (span f s) s) = false.
Proof.
  induction s as [|c s IH]; [reflexivity|]. simpl.
  destruct (f c) eqn:E; [exact IH | simpl; exact E].
Qed.

Lemma starts_hd (f : ascii -> bool) (s t : text) :
  hd_error s = hd_error t -> starts f s = starts f t.
Proof. destruct s, t; simpl; congruence. Qed.


Lemma blank_lines_merged_step (s : text) :
  App.blank_lines_merged s =
    match App.blank_match s with
    | O => match s with [] => [] | c :: s' => c :: App.blank_lines_merged s' end
    | S n => [LF; LF] ++ App.blank_lines_merged (skipn (S n) s)
    end.
Proof. apply (@sub_step _ _ _ match_len_blank_lines blank_match_le). Qed.

(** A match of step 2 is a period, white space, and then none. *)
Lemma period_match_pos (s : text) (n : nat) :
  App.period_match s = S n ->
  exists s', s = "."%char :: s' /\ starts isspace s' = true /\
             starts isspace (skipn (S n) s) = false.
Proof.
  unfold App.period_match. destruct s as [|c s]; [discriminate|].
  destruct (Ascii.eqb "." c) eqn:C; [|discriminate].
  apply Ascii.eqb_eq in C. subst c.
  destruct (span isspace s) as [|k] eqn:K; [discriminate|]. intros [= <-].
  exists s. split; [reflexivity|]. split.
  - destruct (starts isspace s) eqn:E; [reflexivity|].
    apply span_starts in E. congruence.
  - change (skipn (S (S k)) ("."%char :: s)) with (skipn (S k) s).
    rewrite <- K. apply starts_skipn_span.
Qed.


(** A match of step 5 is a run of line feeds, and then none. *)
Lemma blank_match_pos (s : text) (n : nat) :
  App.blank_match s = S n ->
  3 <= S n /\ span (Ascii.eqb LF) s = S n /\
  hd_error s = Some LF /\
  starts (Ascii.eqb LF) (skipn (S n) s) = false.
Proof.
  unfold App.blank_match. destruct (3 <=? span (Ascii.eqb LF) s) eqn:E; [|discriminate].
  apply Nat.leb_le in E. intros H. rewrite H in *.
  split; [exact E|]. split; [reflexivity|]. split.
  - destruct s as [|c s]; [discriminate|]. simpl in H.
    destruct (Ascii.eqb LF c) eqn:C; [|discriminate].
    apply Ascii.eqb_eq in C. subst c. reflexivity.
  - rewrite <- H. apply starts_skipn_span.
Qed.

Lemma periods_spaced_hd (t : text) :
  App.period_match t <> 0 -> hd_error (T ". ") = hd_error t.
Proof.
  destruct (App.period_match t) as [|n] eqn:E; [congruence|]. intros _.
  destruct (period_match_pos t E) as (s' & -> & _). reflexivity.
Qed.

Lemma blank_lines_merged_hd (t : text) :
  App.blank_match t <> 0 -> hd_error [LF; LF] = hd_error t.
Proof.
  destruct (App.blank_match t) as [|n] eqn:E; [congruence|]. intros _.
  destruct (blank_match_pos t E) as (_ & _ & -> & _). reflexivity.
Qed.

Lemma hd_periods_spaced (s : text) : hd_error (App.periods_spaced s) = hd_error s.
Proof.
  apply (@hd_sub _ _ _ match_len_period_spaces period_match_le s periods_spaced_hd).
Qed.

Lemma hd_blank_lines_merged (s : text) :
  hd_error (App.blank_lines_merged s) = hd_error s.
Proof.
  apply (@hd_sub _ _ _ match_len_blank_lines blank_match_le s blank_lines_merged_hd).
Qed.


Lemma starts_blank_lines_merged (f : ascii -> bool) (s : text) :
  starts f (App.blank_lines_merged s) = starts f s.
Proof. apply starts_hd, hd_blank_lines_merged. Qed.

(** *** Numbered points are not created *)







(** *** The result of step 2 is tidy, and step 5 keeps it so *)









(** *** The result of step 5 is calm *)

Lemma blank_match_zero (s : text) :
  App.blank_match s = 0 <-> span (Ascii.eqb LF) s < 3.
Proof.
  unfold App.blank_match. destruct (3 <=? span (Ascii.eqb LF) s) eqn:E.
  - apply Nat.leb_le in E. lia.
  - apply Nat.leb_gt in E. lia.
Qed.

Lemma span_blank_lines_merged (s : text) :
  span (Ascii.eqb LF) (App.blank_lines_merged s) <= span (Ascii.eqb LF) s /\
  span (Ascii.eqb LF) (App.blank_lines_merged s) <= 2.
Proof.
  induction s as [s IH] using length_ind.
  rewrite blank_lines_merged_step. destruct (App.blank_match s) as [|n] eqn:M.
  - destruct s as [|c s]; [simpl; lia|].
    apply blank_match_zero in M. cbn [span] in *.
    destruct (IH s) as [I1 I2]; [simpl; lia|].
    destruct (Ascii.eqb LF c); lia.
  - destruct (@blank_match_pos _ _ M) as (N & S' & _ & R).
    change ([LF; LF] ++ App.blank_lines_merged (skipn (S n) s))
      with (LF :: LF :: App.blank_lines_merged (skipn (S n) s)).
    cbn [span]. change (Ascii.eqb LF LF) with true. cbv iota.
    rewrite <- (starts_blank_lines_merged (Ascii.eqb LF)) in R.
    apply span_starts in R. rewrite R, S'. lia.
Qed.

Lemma blank_match_blank_lines_merged (s : text) :
  App.blank_match (App.blank_lines_merged s) = 0.
Proof. apply blank_match_zero. pose proof (span_blank_lines_merged s). lia. Qed.

Lemma calm_blank_lines_merged (s : text) : App.calm (App.blank_lines_merged s) = true.
Proof.
  induction s as [s IH] using length_ind.
  pose proof (blank_match_blank_lines_merged s) as Z.
  rewrite blank_lines_merged_step in *.
  destruct (App.blank_match s) as [|n] eqn:M.
  - destruct s as [|c s]; [reflexivity|].
    cbn [App.calm]. rewrite Z, IH by (simpl; lia). reflexivity.
  - destruct (@blank_match_pos _ _ M) as (_ & _ & _ & R).
    change ([LF; LF] ++ App.blank_lines_merged (skipn (S n) s))
      with (LF :: LF :: App.blank_lines_merged (skipn (S n) s)) in *.
    cbn [App.calm]. rewrite Z.
    rewrite IH by (pose proof (blank_match_le s); rewrite length_skipn; lia).
    assert (Z1 : App.blank_match (LF :: App.blank_lines_merged (skipn (S n) s)) = 0).
    { apply blank_match_zero. cbn [span]. change (Ascii.eqb LF LF) with true.
      cbv iota. rewrite <- (starts_blank_lines_merged (Ascii.eqb LF)) in R.
      apply span_starts in R. rewrite R. lia. }
    rewrite Z1. reflexivity.
Qed.



(** *** The ends of the text *)







(** *** Steps 3 and 4 without the label *)





(** *** Parts of a text *)





(** *** The label is not created *)




(** *** Formatting twice *)




(** * Further properties *)

(** ** Greedy runs, in general *)

Lemma span_firstn (f : ascii -> bool) (s : text) :
  forall j, j <= span f s -> forallb f (firstn j s) = true /\ j <= length s.
Proof.
  induction s as [|c s IH]; intros j H; simpl in H.
  - assert (j = 0) as -> by lia. split; [reflexivity | simpl; lia].
  - destruct j as [|j]; [split; [reflexivity | simpl; lia]|].
    destruct (f c) eqn:C; [|lia].
    destruct (IH j) as [I1 I2]; [lia|]. cbn [firstn forallb length].
    rewrite C, I1. split; [reflexivity | lia].
Qed.

Lemma span_app_all (f : ascii -> bool) (a t : text) :
  forallb f a = true -> length a <= span f (a ++ t).
Proof.
  induction a as [|c a IH]; intros H; simpl in *; [lia|].
  apply andb_true_iff in H. destruct H as [C H]. rewrite C.
  specialize (IH H). lia.
Qed.

Lemma span_app_stop (f : ascii -> bool) (a t : text) :
  forallb f a = true -> starts f t = false -> span f (a ++ t) = length a.
Proof.
  induction a as [|c a IH]; intros H S'; simpl in *.
  - apply span_starts, S'.
  - apply andb_true_iff in H. destruct H as [C H]. rewrite C, (IH H S'). reflexivity.
Qed.

(** Where a greedy run ends when the match goes through: after [j]
    characters of the class, within the bounds, at a place the rest of
    the pattern accepts. *)
Lemma rep_some (R : Type) (f : ascii -> bool) (k : pos -> option R) (x : R) (s : text) :
  forall before lo hi,
    rep f lo hi k (last_char before) s = Some x ->
    exists j,
      lo <= j /\ j <= span f s /\
      match hi with Some h => j <= h | None => True end /\
      k (last_char (before ++ firstn j s), (skipn j s : text)) = Some x.
Proof.
  induction s as [|c s IH]; intros before lo hi H; cbn [rep] in H.
  - destruct lo; [|discriminate]. exists 0. rewrite app_nil_r.
    repeat split; try (simpl; lia); [destruct hi; [lia | exact I] | exact H].
  - assert (Stop : match lo with O => k (last_char before, (c :: s : text)) | S _ => None end
                   = Some x ->
                   exists j,
                     lo <= j /\ j <= span f (c :: s) /\
                     match hi with Some h => j <= h | None => True end /\
                     k (last_char (before ++ firstn j (c :: s)), (skipn j (c :: s) : text))
                       = Some x).
    { intros E. destruct lo; [|discriminate]. exists 0. rewrite app_nil_r.
      repeat split; try lia; [destruct hi; [lia | exact I] | exact E]. }
    destruct (f c) eqn:C; cbn [andb] in H; [|exact (Stop H)].
    destruct (may_take hi) eqn:M; [|exact (Stop H)].
    rewrite <- (last_char_snoc before c) in H.
    destruct (rep f (pred lo) (option_map pred hi) k (last_char (before ++ [c])) s)
      as [r|] eqn:E; [|exact (Stop H)].
    injection H as ->. destruct (IH _ _ _ E) as (j & J1 & J2 & J3 & J4).
    exists (S j). cbn [span firstn skipn]. rewrite C.
    rewrite <- app_assoc in J4. repeat split; try lia; [|exact J4].
    destruct hi as [[|h]|]; [discriminate | simpl in J3; lia | exact I].
Qed.

(** A run without upper bound goes through when the rest of the pattern
    accepts some place of the run. *)
Lemma rep_reach (R : Type) (f : ascii -> bool) (k : pos -> option R) (s : text) :
  forall before lo j,
    lo <= j -> j <= span f s ->
    (exists x, k (last_char (before ++ firstn j s), (skipn j s : text)) = Some x) ->
    exists y, rep f lo None k (last_char before) s = Some y.
Proof.
  induction s as [|c s IH]; intros before lo j L J (x & K); cbn [rep].
  - simpl in J. assert (j = 0) as -> by lia. assert (lo = 0) as -> by lia.
    rewrite app_nil_r in K. exists x. exact K.
  - cbn [span] in J. destruct (f c) eqn:C.
    + cbn [andb may_take]. destruct j as [|j].
      * assert (lo = 0) as -> by lia. rewrite app_nil_r in K.
        destruct (rep f (pred 0) (option_map pred None) k (Some c) s) as [r|];
          [exists r; reflexivity | exists x; exact K].
      * rewrite <- (last_char_snoc before c).
        destruct (IH (before ++ [c]) (pred lo) j) as (y & E); [lia | lia | |].
        -- exists x. rewrite <- app_assoc. exact K.
        -- cbn [option_map]. rewrite E. exists y. reflexivity.
    + assert (j = 0) as -> by lia. assert (lo = 0) as -> by lia.
      rewrite app_nil_r in K. exists x. exact K.
Qed.

(** ** The number pattern *)

Lemma prev_last_char (prev : option ascii) : exists before, last_char before = prev.
Proof. destruct prev as [c|]; [exists [c] | exists []]; reflexivity. Qed.

Lemma firstn_app_exact (a b : text) (n : nat) : n = length a -> firstn n (a ++ b) = a.
Proof.
  intros ->. rewrite firstn_app, Nat.sub_diag, firstn_all. simpl. apply app_nil_r.
Qed.

Lemma number_token_digits (a : text) :
  forallb isdecimal a = true -> 1 <= length a -> Main.number_token a = true.
Proof.
  intros D L. unfold Main.number_token.
  rewrite <- (app_nil_r a), (span_app_stop isdecimal a [] D eq_refl), app_nil_r.
  rewrite skipn_all. apply andb_true_iff. split; [apply Nat.leb_le, L | reflexivity].
Qed.

Lemma number_token_fraction (a frac : text) (c : ascii) :
  forallb isdecimal a = true -> 1 <= length a ->
  Ascii.eqb "." c = true ->
  forallb isdecimal frac = true -> 1 <= length frac -> length frac <= 2 ->
  Main.number_token (a ++ c :: frac) = true.
Proof.
  intros D L C F L1 L2. unfold Main.number_token.
  assert (S' : starts isdecimal (c :: frac) = false).
  { apply Ascii.eqb_eq in C. subst c. reflexivity. }
  rewrite (span_app_stop isdecimal a (c :: frac) D S').
  rewrite skipn_app, skipn_all, Nat.sub_diag. cbn [app skipn].
  rewrite C, F. apply andb_true_iff. split; [apply Nat.leb_le, L|].
  cbn [andb]. apply andb_true_iff. split; apply Nat.leb_le; assumption.
Qed.

(** What the number pattern matches at a position is a number token. *)
Lemma number_match (adv : bool) (prev : option ascii) (s : text) (n : nat) :
  match_len Main.number adv (prev, s) = Some n ->
  Main.number_token (firstn n s) = true.
Proof.
  intros H. destruct (prev_last_char prev) as (before & <-).
  unfold match_len, Main.number in H.
  change (seq [Bnd; Rep isdecimal 1 None;
               Opt (seq [chr "."; Rep isdecimal 1 (Some 2)]); Bnd])
    with (Seq Bnd (Seq (Rep isdecimal 1 None)
                       (Seq (Opt (Seq (chr ".") (Rep isdecimal 1 (Some 2)))) Bnd))) in H.
  unfold chr in H. cbn [run fst snd] in H.
  destruct (boundary (last_char before, s)); [|discriminate].
  apply rep_some in H. destruct H as (j & J1 & J2 & _ & H).
  destruct (@span_firstn isdecimal s j J2) as (D & L).
  assert (A : length (firstn j s) = j) by (rewrite length_firstn; lia).
  cbn [fst snd] in H.
  assert (Plain : forall q : pos,
            snd q = skipn j s ->
            (if boundary q
             then (if adv && (length s - length (snd q) =? 0)
                   then None else Some (length s - length (snd q)))
             else None) = Some n ->
            Main.number_token (firstn n s) = true).
  { intros q Q E. destruct (boundary q); [|discriminate].
    rewrite Q, length_skipn in E.
    destruct (adv && (length s - (length s - j) =? 0)); [discriminate|].
    injection E as <-. replace (length s - (length s - j)) with j by lia.
    apply number_token_digits; [exact D | lia]. }
  destruct (skipn j s) as [|c t] eqn:T.
  - exact (Plain (last_char (before ++ firstn j s), ([] : text)) eq_refl H).
  - destruct (Ascii.eqb "." c) eqn:C.
    + change (Some c) with (last_char [c]) in H.
      destruct (rep isdecimal 1 (Some 2) _ (last_char [c]) t) as [x|] eqn:G.
      * injection H as ->. apply rep_some in G.
        destruct G as (i & I1 & I2 & I3 & G).
        destruct (@span_firstn isdecimal t i I2) as (F & Li).
        destruct (boundary _); [|discriminate]. cbn [snd] in G.
        rewrite length_skipn in G.
        assert (Ls : length s - j = S (length t)).
        { rewrite <- length_skipn, T. reflexivity. }
        destruct (adv && _); [discriminate|]. injection G as <-.
        assert (S1 : s = (firstn j s ++ c :: firstn i t) ++ skipn i t).
        { rewrite <- app_assoc. cbn [app]. rewrite firstn_skipn, <- T, firstn_skipn.
          reflexivity. }
        assert (Fi : length (firstn i t) = i) by (rewrite length_firstn; lia).
        replace (firstn (length s - (length t - i)) s)
          with (firstn j s ++ c :: firstn i t).
        -- apply number_token_fraction; try assumption; lia.
        -- symmetry. rewrite S1 at 2. apply firstn_app_exact.
           rewrite length_app. cbn [length]. lia.
      * exact (Plain (last_char (before ++ firstn j s), (c :: t : text)) eq_refl H).
    + exact (Plain (last_char (before ++ firstn j s), (c :: t : text)) eq_refl H).
Qed.

Lemma matches_here_in (r : re) (p : pos) (n : nat) :
  In n (matches_here r p) -> exists adv, match_len r adv p = Some n.
Proof.
  unfold matches_here. destruct (match_len r false p) as [[|k]|] eqn:M.
  - destruct (match_len r true p) as [k|] eqn:M'.
    + intros [<-|[<-|[]]]; [exists false; exact M | exists true; exact M'].
    + intros [<-|[]]. exists false; exact M.
  - intros [<-|[]]. exists false; exact M.
  - intros [].
Qed.

(** Every text [findall] returns is a match of the pattern at some place
    of the subject. *)
Lemma findall_in (r : re) (tok : text) (s : text) :
  forall skip prev,
    In tok (scan r (fun s n => [firstn n s]) (fun _ => []) skip prev s) ->
    exists a s' prev' adv n,
      s = a ++ s' /\ match_len r adv (prev', s') = Some n /\ tok = firstn n s'.
Proof.
  induction s as [|c s IH]; intros skip prev H.
  - destruct skip; [|destruct H]. cbn [scan] in H. rewrite app_nil_r in H.
    apply in_flat_map in H. destruct H as (n & Hn & [<-|[]]).
    apply matches_here_in in Hn. destruct Hn as (adv & M).
    exists [], [], prev, adv, n. repeat split. exact M.
  - assert (Next : forall k, In tok (scan r (fun s n => [firstn n s]) (fun _ => [])
                                          k (Some c) s) ->
                   exists a s' prev' adv n,
                     c :: s = a ++ s' /\ match_len r adv (prev', s') = Some n /\
                     tok = firstn n s').
    { intros k Hk. destruct (IH _ _ Hk) as (a & s' & prev' & adv & n & -> & M & E).
      exists (c :: a), s', prev', adv, n. repeat split; assumption. }
    destruct skip as [|k]; [|exact (Next _ H)].
    cbn [scan] in H. apply in_app_or in H. destruct H as [H|H].
    + apply in_flat_map in H. destruct H as (n & Hn & [<-|[]]).
      apply matches_here_in in Hn. destruct Hn as (adv & M).
      exists [], (c :: s), prev, adv, n. repeat split. exact M.
    + match type of H with
      | In _ (match ?x with _ => _ end) => destruct x
      end; [exact (Next 0 H) | exact (Next _ H)].
Qed.

(** X1.  Every text the number pattern finds in a line is a token that
    [float] converts: one digit or more, then nothing or a point and one
    or two digits.  So the conversions of [parse_total_amount] and
    [sum_non_payables], which take the last such text of a line, cannot
    raise. *)
Theorem number_tokens_convert (ln : text) :
  (forall tok, In tok (findall Main.number ln) -> Main.number_token tok = true) /\
  (findall Main.number ln <> [] ->
   Main.number_token (last (findall Main.number ln) []) = true).
Proof.
  assert (H : forall tok, In tok (findall Main.number ln) ->
                          Main.number_token tok = true).
  { intros tok Hin. apply findall_in in Hin.
    destruct Hin as (a & s' & prev' & adv & n & _ & M & ->).
    exact (@number_match adv prev' s' n M). }
  split; [exact H|]. intros N. apply H.
  destruct (exists_last N) as (l & t & E). rewrite E, last_last.
  apply in_or_app. right. left. reflexivity.
Qed.

Lemma number_tokens_convert_witness :
  Main.number_token (T "450.00") = true /\
  Main.number_token (last (findall Main.number (T "Net 1,250.5 payable 3")) []) = true.
Proof.
  split.
  - apply (proj1 (number_tokens_convert (T "Paid 20 of 450.00"))).
    vm_compute. right. left. reflexivity.
  - apply (proj2 (number_tokens_convert (T "Net 1,250.5 payable 3"))).
    vm_compute. discriminate.
Defined.

(** ** Amounts are never negative *)

Lemma shr_1_nonneg (mrs : shr_record) :
  (0 <= shr_m mrs)%Z -> (0 <= shr_m (shr_1 mrs))%Z.
Proof.
  destruct mrs as [m r s]. simpl. destruct m as [|[p|p|]|p]; simpl; lia.
Qed.

Lemma iter_pos_nonneg (p : positive) :
  forall mrs, (0 <= shr_m mrs)%Z -> (0 <= shr_m (SpecFloat.iter_pos shr_1 p mrs))%Z.
Proof.
  induction p as [p IH|p IH|]; intros mrs H; simpl.
  - apply IH, IH, shr_1_nonneg, H.
  - apply IH, IH, H.
  - apply shr_1_nonneg, H.
Qed.

Lemma shr_nonneg (mrs : shr_record) (e n : Z) :
  (0 <= shr_m mrs)%Z -> (0 <= shr_m (fst (shr mrs e n)))%Z.
Proof.
  intros H. unfold shr. destruct n; simpl; [exact H | apply iter_pos_nonneg, H | exact H].
Qed.

Lemma shr_fexp_nonneg (prec emax m e : Z) (l : location) :
  (0 <= m)%Z -> (0 <= shr_m (fst (shr_fexp prec emax m e l)))%Z.
Proof.
  intros H. unfold shr_fexp. apply shr_nonneg.
  destruct l as [|[]]; exact H.
Qed.

Lemma round_nearest_even_nonneg (m : Z) (l : location) :
  (0 <= m)%Z -> (0 <= round_nearest_even m l)%Z.
Proof.
  intros H. destruct l as [|[]]; simpl; try lia. destruct (Z.even m); lia.
Qed.

Lemma binary_round_aux_nonneg (prec emax m e : Z) (l : location) :
  (0 <= m)%Z -> Main.nonneg (binary_round_aux prec emax false m e l) = true.
Proof.
  intros H. unfold binary_round_aux.
  pose proof (shr_fexp_nonneg prec emax e l H) as H1.
  destruct (shr_fexp prec emax m e l) as [mrs' e']. simpl in H1.
  pose proof (shr_fexp_nonneg prec emax e' loc_Exact
                (round_nearest_even_nonneg (loc_of_shr_record mrs') H1)) as H2.
  destruct (shr_fexp prec emax _ e' loc_Exact) as [mrs'' e'']. simpl in H2.
  destruct (shr_m mrs'') as [|q|q]; [reflexivity | | lia].
  destruct (e'' <=? emax - prec)%Z; reflexivity.
Qed.

Lemma binary_normalize_nonneg (m e : Z) :
  (0 <= m)%Z -> Main.nonneg (binary_normalize 53 1024 m e false) = true.
Proof.
  intros H. destruct m as [|p|p]; [reflexivity | | lia].
  unfold binary_normalize, binary_round.
  destruct (shl_align p e _) as [mz ez].
  apply binary_round_aux_nonneg. lia.
Qed.

Lemma float_of_ratio_nonneg (n d : Z) :
  (0 <= n)%Z -> (0 < d)%Z -> Main.nonneg (Main.float_of_ratio n d) = true.
Proof.
  intros N D. unfold Main.float_of_ratio.
  destruct (n =? 0)%Z; [reflexivity|].
  apply binary_normalize_nonneg.
  set (s := Z.max 0 (57 + Z.log2 d - Z.log2 n)).
  assert (0 <= n * 2 ^ s / d)%Z.
  { apply Z.div_pos; [|exact D]. apply Z.mul_nonneg_nonneg; [exact N|].
    apply Z.pow_nonneg. lia. }
  destruct (_ =? 0)%Z; lia.
Qed.

Lemma digits_value_nonneg (s : text) : (0 <= Main.digits_value s)%Z.
Proof.
  unfold Main.digits_value.
  assert (H : forall acc, (0 <= acc)%Z ->
              (0 <= fold_left (fun acc c => 10 * acc + Z.of_nat (code c - 48)) s acc)%Z).
  { induction s as [|c s IH]; intros acc A; cbn [fold_left]; [exact A|].
    apply IH. lia. }
  apply H. lia.
Qed.

Lemma py_float_nonneg (tok : text) : Main.nonneg (Main.py_float tok) = true.
Proof.
  unfold Main.py_float. destruct (split_once (T ".") tok) as [[int_part frac]|].
  - apply float_of_ratio_nonneg; [apply digits_value_nonneg|].
    apply Z.pow_pos_nonneg; lia.
  - apply float_of_ratio_nonneg; [apply digits_value_nonneg | lia].
Qed.

Lemma fadd_nonneg (a b : Main.float) :
  Main.nonneg a = true -> Main.nonneg b = true -> Main.nonneg (Main.fadd a b) = true.
Proof.
  unfold Main.fadd.
  destruct a as [[|]|[|]| |[|] ma ea], b as [[|]|[|]| |[|] mb eb];
    simpl; try discriminate; try reflexivity.
  intros _ _.
  apply (@binary_normalize_nonneg
           (Z.pos (fst (shl_align ma ea (Z.min ea eb))
                   + fst (shl_align mb eb (Z.min ea eb))))
           (Z.min ea eb)).
  lia.
Qed.

Lemma py_sum_nonneg (values : list Main.float) :
  forallb Main.nonneg values = true -> Main.nonneg (Main.py_sum values) = true.
Proof.
  unfold Main.py_sum.
  assert (H : forall acc, Main.nonneg acc = true ->
              forallb Main.nonneg values = true ->
              Main.nonneg (fold_left Main.fadd values acc) = true).
  { induction values as [|v values IH]; intros acc A V; simpl; [exact A|].
    simpl in V. apply andb_true_iff in V. destruct V as [V1 V2].
    apply IH; [apply fadd_nonneg; assumption | exact V2]. }
  apply H. reflexivity.
Qed.

Lemma hit_on_nonneg (kw ln : text) :
  forallb Main.nonneg (map snd (Main.hit_on kw ln)) = true.
Proof.
  rewrite hit_on_spec. destruct (_ && _); [|reflexivity].
  simpl. rewrite py_float_nonneg. reflexivity.
Qed.

Lemma hits_nonneg (lines keywords : list text) :
  forallb Main.nonneg
    (map snd (flat_map (fun kw => flat_map (Main.hit_on kw) lines) keywords)) = true.
Proof.
  induction keywords as [|kw keywords IH]; [reflexivity|].
  cbn [flat_map]. rewrite map_app, forallb_app.
  apply andb_true_iff. split; [|exact IH].
  clear IH. induction lines as [|ln lines IHl]; [reflexivity|].
  cbn [flat_map]. rewrite map_app, forallb_app.
  apply andb_true_iff. split; [apply hit_on_nonneg | exact IHl].
Qed.

(** X2.  The amounts the parsers return are never negative and never
    NaN: a total, every hit and the sum of the hits are zero, positive or
    plus infinity.  A minus sign in front of a number is not read: the
    total of [Total: -450.00] is 450. *)
Theorem amounts_nonneg (text_ : text) :
  (forall v, Main.parse_total_amount text_ = Some v -> Main.nonneg v = true) /\
  (forall keywords,
     Main.nonneg (fst (Main.sum_non_payables text_ keywords)) = true /\
     forall h, In h (snd (Main.sum_non_payables text_ keywords)) ->
               Main.nonneg (snd h) = true) /\
  Main.parse_total_amount (T "Total: -450.00") = Some (Main.float_of_Z 450).
Proof.
  split; [|split].
  - intros v H. unfold Main.parse_total_amount in H.
    apply for_return_some in H. destruct H as (_ & p & _ & _ & _ & H).
    apply for_return_some in H. destruct H as (_ & ln & _ & _ & _ & H).
    apply total_on_line_some in H. destruct H as (_ & _ & ->).
    apply py_float_nonneg.
  - intros keywords.
    assert (H : forallb Main.nonneg
                  (map snd (snd (Main.sum_non_payables text_ keywords))) = true).
    { unfold Main.sum_non_payables. cbn [snd]. rewrite outer_loop_app.
      apply hits_nonneg. }
    split.
    + apply py_sum_nonneg. exact H.
    + intros h Hin. rewrite forallb_forall in H. apply H.
      apply in_map. exact Hin.
  - vm_compute. reflexivity.
Qed.

Lemma amounts_nonneg_witness :
  Main.nonneg (Main.float_of_Z 450) = true.
Proof.
  apply (proj1 (amounts_nonneg (T "Total: -450.00")) (Main.float_of_Z 450)).
  vm_compute. reflexivity.
Defined.

(** ** The labels of a total *)

(** A label with a gap matches at a place when the first word, any white
    space and the second word follow there, case ignored. *)
Lemma gap_label_here (x y before s : text) :
  (exists n, match_len (seq [lit_i x; Main.spaces; lit_i y]) false
               (last_char before, s) = Some n) <->
  exists a ws b rest,
    s = a ++ ws ++ b ++ rest /\
    map lower a = map lower x /\ forallb isspace ws = true /\
    map lower b = map lower y.
Proof.
  unfold match_len, Main.spaces.
  change (seq [lit_i x; Rep isspace 0 None; lit_i y])
    with (Seq (lit_i x) (Seq (Rep isspace 0 None) (lit_i y))).
  rewrite run_Seq. split.
  - intros (n & H). apply run_lit_i in H. destruct H as (a & rest1 & -> & A & H).
    rewrite run_Seq, run_Rep in H. cbn [fst snd] in H.
    apply rep_some in H. destruct H as (j & _ & J & _ & H).
    apply run_lit_i in H. destruct H as (b & rest & E & B & _).
    exists a, (firstn j rest1), b, rest. repeat split; try assumption.
    + rewrite <- E, firstn_skipn. reflexivity.
    + apply (@span_firstn isspace rest1 j J).
  - intros (a & ws & b & rest & -> & A & W & B).
    assert (Inner : exists m,
              run (Seq (Rep isspace 0 None) (lit_i y))
                (fun q : pos =>
                   if false && (length (a ++ ws ++ b ++ rest) - length (snd q) =? 0)
                   then None
                   else Some (length (a ++ ws ++ b ++ rest) - length (snd q)))
                (last_char (before ++ a), (ws ++ b ++ rest : text)) = Some m).
    { rewrite run_Seq, run_Rep. cbn [fst snd].
      apply (@rep_reach _ isspace _ (ws ++ b ++ rest) (before ++ a) 0 (length ws));
        [lia | apply span_app_all, W |].
      rewrite (firstn_app_exact ws (b ++ rest) eq_refl).
      rewrite skipn_app, skipn_all, Nat.sub_diag. cbn [app skipn].
      eexists. apply run_lit_i. exists b, rest.
      split; [reflexivity|]. split; [exact B|]. cbn [andb]. reflexivity. }
    destruct Inner as (m & Hm). exists m. apply run_lit_i.
    exists a, (ws ++ b ++ rest). split; [reflexivity|]. split; [exact A | exact Hm].
Qed.

(** X3.  The labels of a total.  The first three are two words with any
    white space, or none, between them; they are found anywhere in a
    line, also inside longer words, and in any case.  Only the last
    label, [total], must stand as a whole word.  So a line
    [Internet payable 99] is read as a net payable line. *)
Theorem total_labels (x y ln : text) :
  Main.patterns =
    [ seq [lit_i (T "net"); Main.spaces; lit_i (T "payable")];
      seq [lit_i (T "amount"); Main.spaces; lit_i (T "payable")];
      seq [lit_i (T "grand"); Main.spaces; lit_i (T "total")];
      Main.keyword_pattern (T "total") ] /\
  (search (seq [lit_i x; Main.spaces; lit_i y]) ln = true <->
   exists before a ws b after,
     ln = before ++ a ++ ws ++ b ++ after /\
     map lower a = map lower x /\ forallb isspace ws = true /\
     map lower b = map lower y) /\
  (search (Main.keyword_pattern (T "total")) ln = true <->
   Main.whole_word (T "total") ln) /\
  Main.parse_total_amount (T "Internet payable 99" ++ [LF] ++ T "Subtotal 7")
    = Some (Main.float_of_Z 99).
Proof.
  split; [reflexivity|]. split; [|split].
  - unfold search. change None with (last_char []). rewrite search_from_spec. split.
    + intros (before & s & -> & H). apply gap_label_here in H.
      destruct H as (a & ws & b & rest & -> & A & W & B).
      exists before, a, ws, b, rest. repeat split; assumption.
    + intros (before & a & ws & b & after & -> & A & W & B).
      exists before, (a ++ ws ++ b ++ after). split; [reflexivity|].
      apply gap_label_here. exists a, ws, b, after. repeat split; assumption.
  - apply search_keyword.
  - vm_compute. reflexivity.
Qed.

Lemma total_labels_witness :
  search (seq [lit_i (T "net"); Main.spaces; lit_i (T "payable")])
         (T "INTERNET  Payable") = true.
Proof.
  apply (proj2 (proj1 (proj2 (total_labels (T "net") (T "payable")
                                (T "INTERNET  Payable"))))).
  exists (T "INTER"), (T "NET"), (T "  "), (T "Payable"), [].
  repeat split; reflexivity.
Defined.

(** ** Keywords *)






(** X5.  Keywords are looked up one by one: the hits of a list of
    keywords are the hits of its first part followed by the hits of the
    rest.  A keyword listed twice is counted twice, and so is the amount
    of a line that carries two of the keywords. *)
Theorem keywords_independent (text_ : text) (keywords1 keywords2 : list text) :
  snd (Main.sum_non_payables text_ (keywords1 ++ keywords2)) =
    snd (Main.sum_non_payables text_ keywords1)
      ++ snd (Main.sum_non_payables text_ keywords2) /\
  (forall kw,
     snd (Main.sum_non_payables text_ [kw; kw]) =
       snd (Main.sum_non_payables text_ [kw])
         ++ snd (Main.sum_non_payables text_ [kw])) /\
  Main.sum_non_payables (T "Admin fee 50") [T "admin"; T "fee"] =
    (Main.float_of_Z 100,
     [(T "admin", Main.float_of_Z 50); (T "fee", Main.float_of_Z 50)]).
Proof.
  assert (H : forall ks1 ks2,
            snd (Main.sum_non_payables text_ (ks1 ++ ks2)) =
              snd (Main.sum_non_payables text_ ks1)
                ++ snd (Main.sum_non_payables text_ ks2)).
  { intros ks1 ks2. unfold Main.sum_non_payables. cbn [snd].
    rewrite !outer_loop_app. cbn [app]. apply flat_map_app. }
  split; [apply H|]. split; [|vm_compute; reflexivity].
  intros kw. exact (H [kw] [kw]).
Qed.

(** ** The formatter changes white space only *)

Lemma ink_app (a b : text) : App.ink (a ++ b) = App.ink a ++ App.ink b.
Proof. apply filter_app. Qed.

Lemma ink_spaces (w : text) : forallb isspace w = true -> App.ink w = [].
Proof.
  induction w as [|c w IH]; [reflexivity|]. cbn [forallb]. intros H.
  apply andb_true_iff in H. destruct H as [C H].
  unfold App.ink. cbn [filter]. rewrite C. exact (IH H).
Qed.

Lemma ink_nil (s : text) : App.ink s = [] -> forallb isspace s = true.
Proof.
  induction s as [|c s IH]; [reflexivity|]. unfold App.ink. cbn [filter forallb].
  destruct (isspace c); [exact IH | discriminate].
Qed.

Lemma ink_split (n : nat) (s : text) :
  App.ink s = App.ink (firstn n s) ++ App.ink (skipn n s).
Proof. rewrite <- ink_app, firstn_skipn. reflexivity. Qed.

Lemma ink_strip (s : text) : App.ink (strip s) = App.ink s.
Proof.
  destruct (lstrip_split s) as (a & E1 & A).
  destruct (rstrip_split (lstrip s)) as (b & E2 & B).
  apply (f_equal App.ink) in E1, E2.
  rewrite ink_app, (ink_spaces a A) in E1.
  rewrite ink_app, (ink_spaces b B), app_nil_r in E2.
  unfold strip. rewrite E1, E2. reflexivity.
Qed.

(** The matches at one position: none, one, or an empty one and then a
    second one. *)
Lemma matches_here_cases (r : re) (p : pos) :
  matches_here r p = [] \/
  (exists adv n, matches_here r p = [n] /\ match_len r adv p = Some n) \/
  (exists adv n, matches_here r p = [0; n] /\
                 match_len r false p = Some 0 /\ match_len r adv p = Some n).
Proof.
  unfold matches_here. destruct (match_len r false p) as [[|k]|] eqn:M.
  - destruct (match_len r true p) as [k|] eqn:M'.
    + right. right. exists true, k. repeat split. exact M'.
    + right. left. exists false, 0. split; [reflexivity | exact M].
  - right. left. exists false, (S k). split; [reflexivity | exact M].
  - left. reflexivity.
Qed.

(** A substitution whose matches and whose replacement hold the same
    characters apart from white space changes white space only. *)
Lemma sub_ink (r : re) (repl : text) :
  (forall adv prev s n,
     match_len r adv (prev, s) = Some n ->
     n <= length s /\ App.ink (firstn n s) = App.ink repl) ->
  forall s skip prev,
    App.ink (scan r (fun _ _ => repl) (fun c => [c]) skip prev s) =
    App.ink (skipn skip s).
Proof.
  intros P. induction s as [|c s IH]; intros skip prev.
  - destruct skip; [|reflexivity]. cbn [scan skipn]. rewrite app_nil_r.
    destruct (matches_here_cases r (prev, ([] : text)))
      as [E|[(adv & n & E & M)|(adv & n & E & M0 & M)]]; rewrite E; cbn [flat_map].
    + reflexivity.
    + destruct (P _ _ _ _ M) as (L & I). simpl in L. assert (n = 0) as -> by lia.
      rewrite app_nil_r, <- I. reflexivity.
    + destruct (P _ _ _ _ M0) as (_ & I). rewrite !ink_app, <- I. reflexivity.
  - destruct skip as [|k]; [|cbn [scan skipn]; apply IH].
    cbn [scan skipn]. rewrite ink_app.
    assert (Tail : forall n,
              n <= length (c :: s) ->
              App.ink (firstn n (c :: s)) = App.ink repl ->
              App.ink repl ++
              App.ink (match n with
                       | 0 => [c] ++ scan r (fun _ _ => repl) (fun c => [c]) 0 (Some c) s
                       | S k => scan r (fun _ _ => repl) (fun c => [c]) k (Some c) s
                       end) = App.ink (c :: s)).
    { intros n L I. rewrite <- I. destruct n as [|k].
      - cbn [firstn]. rewrite ink_app, IH. exact (eq_sym (ink_app [c] s)).
      - rewrite IH. symmetry. apply (ink_split (S k) (c :: s)). }
    destruct (matches_here_cases r (prev, (c :: s : text)))
      as [E|[(adv & n & E & M)|(adv & n & E & M0 & M)]]; rewrite E;
      cbn [flat_map last].
    + rewrite ink_app, IH. exact (eq_sym (ink_app [c] s)).
    + destruct (P _ _ _ _ M) as (L & I). rewrite app_nil_r. exact (Tail n L I).
    + destruct (P _ _ _ _ M0) as (_ & I0). destruct (P _ _ _ _ M) as (L & I).
      rewrite app_nil_r, ink_app. rewrite <- I0 at 1. exact (Tail n L I).
Qed.

Lemma numbered_point_ink (adv : bool) (prev : option ascii) (s : text) (n : nat) :
  match_len App.numbered_point adv (prev, s) = Some n ->
  n <= length s /\ App.ink (firstn n s) = App.ink [LF].
Proof.
  intros H. destruct (prev_last_char prev) as (before & <-).
  unfold match_len, App.numbered_point in H.
  change (seq [Rep isspace 0 None; NotBegin;
               Ahead (seq [Rep isdecimal 1 None; chr "."; Cls isspace])])
    with (Seq (Rep isspace 0 None)
              (Seq NotBegin (Ahead (seq [Rep isdecimal 1 None; chr "."; Cls isspace]))))
    in H.
  rewrite run_Seq, run_Rep in H. cbn [fst snd] in H.
  apply rep_some in H. destruct H as (j & _ & J & _ & H).
  destruct (@span_firstn isspace s j J) as (W & L).
  cbn [run fst snd] in H.
  destruct (last_char (before ++ firstn j s)); [|discriminate].
  destruct (run _ _ _); [|discriminate].
  rewrite length_skipn in H.
  destruct (adv && _); [discriminate|]. injection H as <-.
  replace (length s - (length s - j)) with j by lia.
  split; [exact L|]. rewrite (ink_spaces _ W). reflexivity.
Qed.

Lemma period_spaces_ink (adv : bool) (prev : option ascii) (s : text) (n : nat) :
  match_len App.period_spaces adv (prev, s) = Some n ->
  n <= length s /\ App.ink (firstn n s) = App.ink (T ". ").
Proof.
  rewrite match_len_period_spaces. intros H.
  pose proof (period_match_le s) as L.
  destruct (App.period_match s) as [|m] eqn:E; [discriminate|].
  injection H as <-. split; [exact L|].
  unfold App.period_match in E. destruct s as [|c s]; [discriminate|].
  destruct (Ascii.eqb "." c) eqn:C; [|discriminate].
  apply Ascii.eqb_eq in C. subst c.
  destruct (span isspace s) as [|k] eqn:K; [discriminate|].
  injection E as <-.
  destruct (@span_firstn isspace s (S k)) as (W & _); [lia|].
  change (firstn (S (S k)) ("."%char :: s)) with (["."%char] ++ firstn (S k) s).
  rewrite ink_app, (ink_spaces _ W). reflexivity.
Qed.

Lemma blank_lines_ink (adv : bool) (prev : option ascii) (s : text) (n : nat) :
  match_len App.blank_lines adv (prev, s) = Some n ->
  n <= length s /\ App.ink (firstn n s) = App.ink [LF; LF].
Proof.
  rewrite match_len_blank_lines. intros H.
  pose proof (blank_match_le s) as L.
  destruct (App.blank_match s) as [|m] eqn:E; [discriminate|].
  injection H as <-. split; [exact L|].
  unfold App.blank_match in E.
  destruct (3 <=? span (Ascii.eqb LF) s); [|discriminate].
  destruct (@span_firstn (Ascii.eqb LF) s (S m)) as (W & _); [lia|].
  rewrite ink_spaces; [reflexivity|].
  rewrite forallb_forall in *. intros x Hx. specialize (W x Hx).
  apply Ascii.eqb_eq in W. subst x. reflexivity.
Qed.

Lemma startswith_split (p s : text) :
  startswith p s = true -> s = p ++ skipn (length p) s.
Proof.
  revert s. induction p as [|x p IH]; intros s H; [reflexivity|].
  destruct s as [|c s]; [discriminate|]. cbn [startswith] in H.
  apply andb_true_iff in H. destruct H as [C H].
  apply Ascii.eqb_eq in C. subst c. cbn [length skipn app]. f_equal. apply IH, H.
Qed.

Lemma replace_from_ink (o : ascii) (old new : text) :
  App.ink new = App.ink (o :: old) ->
  forall s skip,
    App.ink (replace_from (o :: old) new skip s) = App.ink (skipn skip s).
Proof.
  intros E. induction s as [|c s IH]; intros skip.
  - destruct skip; reflexivity.
  - destruct skip as [|k]; [|cbn [replace_from skipn]; apply IH].
    cbn [replace_from skipn]. destruct (startswith (o :: old) (c :: s)) eqn:S'.
    + rewrite ink_app, IH, E. cbn [length pred].
      apply startswith_split in S'. cbn [length skipn app] in S'.
      injection S' as -> S'. rewrite S' at 2.
      change (o :: old ++ skipn (length old) s)
        with ((o :: old) ++ skipn (length old) s).
      rewrite ink_app. reflexivity.
    + change (c :: replace_from (o :: old) new 0 s)
        with ([c] ++ replace_from (o :: old) new 0 s).
      rewrite ink_app, IH. exact (eq_sym (ink_app [c] s)).
Qed.

Lemma split_once_parts (sep s head tail : text) :
  split_once sep s = Some (head, tail) -> s = head ++ sep ++ tail.
Proof.
  revert head. induction s as [|c s IH]; intros head; cbn [split_once].
  - destruct (startswith sep []) eqn:S'; [|discriminate].
    intros [= <- <-]. exact (startswith_split _ _ S').
  - destruct (startswith sep (c :: s)) eqn:S'.
    + intros [= <- <-]. exact (startswith_split _ _ S').
    + destruct (split_once sep s) as [[h t]|]; [|discriminate].
      intros [= <- <-]. cbn [app]. f_equal. apply IH. reflexivity.
Qed.

Lemma bullets_ink (s : text) : App.ink (App.bullets s) = App.ink s.
Proof.
  unfold App.bullets. destruct (contains (T "Breakdown:") s); [|reflexivity].
  destruct (split_once (T "Breakdown:") s) as [[head tail]|] eqn:E; [|reflexivity].
  apply split_once_parts in E. rewrite E at 1. rewrite !ink_app. do 2 f_equal.
  apply (@replace_from_ink " " (T "- ") (LF :: T "   - ") eq_refl tail 0).
Qed.

(** X6.  The formatter changes white space only: the characters of the
    formatted reply that are not white space are those of the reply, in
    the same order.  No word, digit or sign is lost, added or moved. *)
Theorem fmt_money_blocks_keeps_ink (txt : text) :
  App.ink (App.fmt_money_blocks txt) = App.ink txt.
Proof.
  unfold App.fmt_money_blocks, App.blank_lines_merged, App.breakdown_on_line,
    App.periods_spaced, App.numbered_on_lines, sub.
  rewrite (@sub_ink App.blank_lines [LF; LF] blank_lines_ink). cbn [skipn].
  rewrite bullets_ink.
  change (replace (T "3. Breakdown:") (T "3. Breakdown:" ++ [LF]))
    with (fun s => replace_from (T "3. Breakdown:") (T "3. Breakdown:" ++ [LF]) 0 s).
  cbv beta.
  rewrite (@replace_from_ink "3" (T ". Breakdown:") (T "3. Breakdown:" ++ [LF]) eq_refl
             _ 0).
  cbn [skipn].
  rewrite (@sub_ink App.period_spaces (T ". ") period_spaces_ink). cbn [skipn].
  rewrite (@sub_ink App.numbered_point [LF] numbered_point_ink). cbn [skipn].
  apply ink_strip.
Qed.

(** ** The start of the formatted text *)

Lemma hd_numbered_on_lines (s : text) :
  match s with c :: _ => isspace c = false | [] => True end ->
  hd_error (App.numbered_on_lines s) = hd_error s.
Proof.
  destruct s as [|c s]; [reflexivity|]. intros C.
  unfold App.numbered_on_lines, sub. cbn [scan].
  assert (M : forall adv, match_len App.numbered_point adv (None, (c :: s : text)) = None).
  { intros adv. unfold match_len, App.numbered_point.
    change (seq [Rep isspace 0 None; NotBegin;
                 Ahead (seq [Rep isdecimal 1 None; chr "."; Cls isspace])])
      with (Seq (Rep isspace 0 None)
                (Seq NotBegin
                     (Ahead (seq [Rep isdecimal 1 None; chr "."; Cls isspace])))).
    rewrite run_Seq, run_Rep. cbn [fst snd rep]. rewrite C. reflexivity. }
  unfold matches_here. rewrite (M false). reflexivity.
Qed.

Lemma hd_replace_from (o : ascii) (old new : text) (s : text) :
  hd_error (replace_from (o :: old) (o :: new) 0 s) = hd_error s.
Proof.
  destruct s as [|c s]; [reflexivity|]. cbn [replace_from].
  destruct (startswith (o :: old) (c :: s)) eqn:S'; [|reflexivity].
  apply startswith_hd in S'. exact (eq_sym S').
Qed.

Lemma hd_bullets (s : text) : hd_error (App.bullets s) = hd_error s.
Proof.
  unfold App.bullets. destruct (contains (T "Breakdown:") s); [|reflexivity].
  destruct (split_once (T "Breakdown:") s) as [[head tail]|] eqn:E; [|reflexivity].
  apply split_once_parts in E. rewrite E at 1. destruct head; reflexivity.
Qed.

Lemma strip_spaces (s : text) : forallb isspace s = true -> strip s = [].
Proof.
  intros H. assert (L : lstrip s = []).
  { induction s as [|c s IH]; [reflexivity|]. cbn [forallb] in H.
    apply andb_true_iff in H. destruct H as [C H]. cbn [lstrip]. rewrite C.
    exact (IH H). }
  unfold strip. rewrite L. reflexivity.
Qed.

Lemma strip_nil (s : text) : strip s = [] -> forallb isspace s = true.
Proof.
  intros E. destruct (lstrip_split s) as (a & E1 & A).
  destruct (rstrip_split (lstrip s)) as (b & E2 & B).
  unfold strip in E. rewrite E in E2. cbn [app] in E2.
  rewrite E1, E2, forallb_app, A, B. reflexivity.
Qed.

(** X7.  What the formatted text looks like.  It never has three line
    feeds in a row.  It is empty exactly when the reply is white space
    only.  It starts with the first character of the reply that is not
    white space, so it never starts with white space. *)
Theorem fmt_money_blocks_result (txt : text) :
  App.calm (App.fmt_money_blocks txt) = true /\
  (App.fmt_money_blocks txt = [] <-> forallb isspace txt = true) /\
  hd_error (App.fmt_money_blocks txt) = hd_error (strip txt) /\
  match App.fmt_money_blocks txt with c :: _ => isspace c = false | [] => True end.
Proof.
  assert (Hd : hd_error (App.fmt_money_blocks txt) = hd_error (strip txt)).
  { unfold App.fmt_money_blocks. rewrite hd_blank_lines_merged, hd_bullets.
    unfold App.breakdown_on_line.
    change (replace (T "3. Breakdown:") (T "3. Breakdown:" ++ [LF]))
      with (fun s => replace_from (T "3. Breakdown:") (T "3. Breakdown:" ++ [LF]) 0 s).
    cbv beta.
    rewrite (@hd_replace_from "3" (T ". Breakdown:") (T ". Breakdown:" ++ [LF])).
    rewrite hd_periods_spaced. apply hd_numbered_on_lines, strip_ends. }
  split; [apply calm_blank_lines_merged|]. split; [|split; [exact Hd|]].
  - split.
    + intros E. rewrite E in Hd. apply strip_nil.
      destruct (strip txt); [reflexivity | discriminate].
    + intros W. unfold App.fmt_money_blocks. rewrite (strip_spaces _ W). reflexivity.
  - pose proof (proj1 (strip_ends txt)) as S'.
    destruct (App.fmt_money_blocks txt) as [|c r]; [exact I|].
    destruct (strip txt) as [|c' r']; [discriminate|].
    injection Hd as ->. exact S'.
Qed.

Lemma fmt_money_blocks_result_witness :
  App.fmt_money_blocks ([LF] ++ T "  ") = [].
Proof.
  apply (proj2 (proj1 (proj2 (fmt_money_blocks_result ([LF] ++ T "  "))))).
  reflexivity.
Defined.

(** ** The shape of a conversation *)

Lemma user_not_assistant (m : Main.message) :
  Main.has_role (T "user") m = true -> Main.has_role (T "assistant") m = false.
Proof.
  unfold Main.has_role. intros H. apply text_eqb_eq in H. rewrite H. reflexivity.
Qed.

(** Turns stay turns when a tail of turns that starts with a user
    message is appended. *)
Lemma turns_ok_app (tail : list Main.message) :
  Main.turns_ok tail = true ->
  match tail with m :: _ => Main.has_role (T "user") m = true | [] => True end ->
  forall turns,
    Main.turns_ok turns = true -> Main.turns_ok (turns ++ tail) = true.
Proof.
  intros Tl Hd turns. induction turns as [turns IH] using (@length_ind Main.message).
  destruct turns as [|m rest]; [intros _; exact Tl|].
  cbn [Main.turns_ok app]. intros H. apply andb_true_iff in H. destruct H as [U H].
  rewrite U. cbn [andb]. destruct rest as [|a rest'].
  - cbn [app]. destruct tail as [|t tail']; [reflexivity|].
    rewrite (user_not_assistant t Hd). exact Tl.
  - cbn [app]. destruct (Main.has_role (T "assistant") a).
    + apply IH; [simpl; lia | exact H].
    + apply (IH (a :: rest')); [simpl; lia | exact H].
Qed.

Section ConversationProperties.
Variable policy : Type.
Variable json_dumps : policy -> text.

(** After message 0 is rebuilt a conversation is still a conversation. *)
Lemma refresh_conversation (history : list Main.message) (sys : text) :
  Main.conversation_ok history = true ->
  exists turns,
    Main.refresh history sys = Main.system_message sys :: turns /\
    Main.turns_ok turns = true /\
    (forall m rest, history = m :: rest -> turns = rest).
Proof.
  destruct history as [|m rest]; intros H.
  - exists []. repeat split. intros m rest E. discriminate.
  - cbn [Main.conversation_ok] in H. apply andb_true_iff in H. destruct H as [S' H].
    unfold Main.has_role in S'. cbn [Main.refresh]. rewrite S'. cbn [negb].
    apply text_eqb_eq in S'. exists rest. rewrite S'. repeat split; [exact H|].
    intros m' rest' [= _ <-]. reflexivity.
Qed.

(** X8.  A conversation keeps its shape through every call: when the
    history is empty or is a system message followed by user messages,
    each with at most one assistant message after it, the history is of
    that shape again after [chat_with_history], whether the client
    answered or raised.  A call adds the user message, and the assistant
    message only when the client answered. *)
Theorem conversation_kept (chat_client : Main.client)
    (history : list Main.message) (pol : policy) (bill_text user_input : text)
    (tr : Main.trace) :
  Main.conversation_ok history = true ->
  let result :=
    Main.chat_with_history json_dumps chat_client history pol bill_text user_input tr in
  let after := snd (fst result) in
  Main.conversation_ok after = true /\
  length after =
    match history with [] => 1 | _ :: _ => length history end
    + match fst (fst result) with Ok _ => 2 | Err _ => 1 end.
Proof.
  intros H result after. unfold after, result. rewrite chat_with_history_eq.
  destruct (@refresh_conversation history (Main.system_msg json_dumps pol bill_text) H)
    as (turns & E & Tu & Rest).
  rewrite E.
  assert (L : S (length turns) =
              match history with [] => 1 | _ :: _ => length history end).
  { destruct history as [|m rest]; [|rewrite (Rest m rest eq_refl); reflexivity].
    cbn [Main.refresh] in E. injection E as <-. reflexivity. }
  rewrite <- L.
  assert (U : Main.turns_ok (turns ++ [Main.user_message user_input]) = true).
  { apply turns_ok_app; [reflexivity | reflexivity | exact Tu]. }
  destruct (chat_client tr _) as [resp|e].
  - destruct (resp_text_returns resp) as (reply & ->). cbn [fst snd]. split.
    + cbn [app Main.conversation_ok]. rewrite <- app_assoc.
      apply (@turns_ok_app [Main.user_message user_input; Main.assistant_message reply]);
        [reflexivity | reflexivity | exact Tu].
    + cbn [app length]. rewrite ?length_app. cbn [length]. lia.
  - cbn [fst snd]. split; [exact U|].
    cbn [app length]. rewrite ?length_app. cbn [length]. lia.
Qed.

(** X9.  A failed send followed by a retry leaves the question twice:
    when a call raises and the same input is sent again and answered,
    the second request holds the user message two times in a row, and so
    does the history, with one assistant message after them. *)
Theorem failed_send_then_retry (chat_client : Main.client)
    (history : list Main.message) (pol : policy) (bill_text user_input : text)
    (tr tr1 tr2 : Main.trace) (e : exn) (reply : text)
    (history1 history2 : list Main.message) :
  Main.chat_with_history json_dumps chat_client history pol bill_text user_input tr
    = (Err e, history1, tr1) ->
  Main.chat_with_history json_dumps chat_client history1 pol bill_text user_input tr1
    = (Ok reply, history2, tr2) ->
  let sys := Main.system_message (Main.system_msg json_dumps pol bill_text) in
  let user := Main.user_message user_input in
  exists turns,
    history1 = sys :: turns ++ [user] /\
    history2 = sys :: turns ++ [user; user; Main.assistant_message reply] /\
    tr2 = tr ++ [sys :: turns ++ [user]; sys :: turns ++ [user; user]].
Proof.
  intros H1 H2 sys user.
  rewrite chat_with_history_eq in H1.
  destruct (refresh_shape history (Main.system_msg json_dumps pol bill_text))
    as (turns & E & _).
  rewrite E in H1. exists turns.
  assert (X : history1 = sys :: turns ++ [user] /\ tr1 = tr ++ [sys :: turns ++ [user]]).
  { destruct (chat_client tr _) as [resp|]; [destruct (Main._resp_text resp)|];
      inversion H1; split; reflexivity. }
  clear H1 E. destruct X as [-> ->]. split; [reflexivity|].
  rewrite chat_with_history_eq in H2.
  change (Main.refresh (sys :: turns ++ [user]) (Main.system_msg json_dumps pol bill_text))
    with (sys :: turns ++ [user]) in H2.
  destruct (chat_client _ _) as [resp|]; [|discriminate].
  destruct (Main._resp_text resp); [|discriminate].
  inversion H2. cbn [app]. rewrite <- !app_assoc. cbn [app].
  split; reflexivity.
Qed.

End ConversationProperties.

Lemma conversation_kept_witness :
  let chat_client : Main.client := fun _ _ => Err (ServiceError (T "down")) in
  Main.conversation_ok
    (snd (fst (Main.chat_with_history (fun _ : unit => T "{}") chat_client
                 [] tt (T "bill") (T "hi") []))) = true.
Proof.
  intros chat_client.
  apply (@conversation_kept unit (fun _ => T "{}") chat_client [] tt (T "bill") (T "hi") []).
  reflexivity.
Defined.

Lemma failed_send_then_retry_witness :
  let chat_client : Main.client :=
    fun tr _ => match tr with
                | [] => Err (ServiceError (T "down"))
                | _ => Ok (VStr (T "hello"))
                end in
  let sys := Main.system_message (Main.system_msg (fun _ : unit => T "{}") tt (T "bill")) in
  let user := Main.user_message (T "hi") in
  exists turns,
    [sys; user] = sys :: turns ++ [user] /\
    [sys; user; user; Main.assistant_message (T "hello")]
      = sys :: turns ++ [user; user; Main.assistant_message (T "hello")] /\
    [[sys; user]; [sys; user; user]]
      = [] ++ [sys :: turns ++ [user]; sys :: turns ++ [user; user]].
Proof.
  intros chat_client sys user.
  exact (@failed_send_then_retry unit (fun _ => T "{}") chat_client
           [] tt (T "bill") (T "hi") [] [[sys; user]] [[sys; user]; [sys; user; user]]
           (ServiceError (T "down")) (T "hello")
           [sys; user] [sys; user; user; Main.assistant_message (T "hello")]
           eq_refl eq_refl).
Defined.

(** ** Extraction that fails *)

Lemma resp_text_stripped (resp : value) :
  exists s', Main._resp_text resp = Ok (strip s').
Proof.
  unfold Main._resp_text. destruct (Main.try_block resp) as [s| |] eqn:E.
  - destruct (try_block_stripped resp E) as (s' & ->). eexists; reflexivity.
  - eexists; reflexivity.
  - eexists; reflexivity.
Qed.

Section ExtractionFailures.
Variable image : Type.
Variable pil_to_data_url : image -> text.
Variable frombytes : text -> Z * Z -> list ascii -> image.
Variable fitz_open : list ascii -> outcome (list (Main.page)).
Variable vision_client : Main.client.

(** The loop ends badly at the first blank page whose request the client
    refuses. *)
Lemma for_pages_err (doc : list Main.page) :
  forall pages tr e tr',
    Main.for_pages pil_to_data_url frombytes vision_client doc pages tr = (Err e, tr') ->
    exists before pg after,
      doc = before ++ pg :: after /\
      Main.blank pg = true /\
      let sent :=
        tr ++ map (Main.ocr_request pil_to_data_url frombytes)
                  (filter Main.blank before) in
      vision_client sent (Main.ocr_request pil_to_data_url frombytes pg) = Err e /\
      tr' = sent ++ [Main.ocr_request pil_to_data_url frombytes pg].
Proof.
  induction doc as [|pg doc IH]; intros pages tr e tr' H; [discriminate|].
  cbn [Main.for_pages] in H. destruct (Main.blank pg) eqn:B.
  - destruct (page_text_blank pil_to_data_url frombytes vision_client pg tr B)
      as (P & _).
    rewrite P in H. clear P.
    unfold Main.extract_text_from_image, Main.invoke in H.
    change (Main.ocr_messages _) with (Main.ocr_request pil_to_data_url frombytes pg) in H.
    destruct (vision_client tr (Main.ocr_request pil_to_data_url frombytes pg))
      as [resp|e0] eqn:V.
    + destruct (resp_text_returns resp) as (s & R). rewrite R in H.
      destruct (IH _ _ _ _ H) as (before & pg' & after & -> & B' & V' & ->).
      exists (pg :: before), pg', after. cbn [filter map]. rewrite B. cbn [map].
      cbn zeta in *. rewrite <- app_assoc in V'.
      split; [reflexivity|]. split; [exact B'|]. split; [exact V'|].
      rewrite <- !app_assoc. reflexivity.
    + injection H as <- <-. exists [], pg, doc. cbn [filter map app].
      cbn zeta. rewrite app_nil_r.
      split; [reflexivity|]. split; [exact B|]. split; [exact V | reflexivity].
  - rewrite (page_text_native pil_to_data_url frombytes vision_client pg tr B) in H.
    destruct (IH _ _ _ _ H) as (before & pg' & after & -> & B' & V' & ->).
    exists (pg :: before), pg', after. cbn [filter]. rewrite B.
    split; [reflexivity|]. split; [exact B'|]. split; [exact V' | reflexivity].
Qed.

(** X10.  How [extract_text_from_pdf] fails.  A stream that cannot be
    opened raises before anything is sent.  Otherwise the extraction
    fails exactly at the first blank page whose request the vision
    client refuses: the requests made are those of the blank pages up to
    that page, in page order, the pages after it are not handled, and
    the texts collected so far are dropped with the exception.  Without
    the rendering library nothing is opened or sent and the install hint
    is returned as if it were the text of the bill. *)
Theorem extract_text_from_pdf_failures (file_bytes : list ascii) (tr : Main.trace) :
  let extract ok :=
    Main.extract_text_from_pdf pil_to_data_url frombytes fitz_open ok
      file_bytes vision_client tr in
  (forall e, fitz_open file_bytes = Err e -> extract true = (Err e, tr)) /\
  (forall doc e tr',
     fitz_open file_bytes = Ok doc ->
     extract true = (Err e, tr') ->
     exists before pg after,
       doc = before ++ pg :: after /\
       Main.blank pg = true /\
       let sent :=
         tr ++ map (Main.ocr_request pil_to_data_url frombytes)
                   (filter Main.blank before) in
       vision_client sent (Main.ocr_request pil_to_data_url frombytes pg) = Err e /\
       tr' = sent ++ [Main.ocr_request pil_to_data_url frombytes pg]) /\
  extract false = (Ok (T "PDF OCR requires `pip install pymupdf`"), tr).
Proof.
  intros extract. split; [|split].
  - intros e O. unfold extract, Main.extract_text_from_pdf. cbn [negb]. rewrite O.
    reflexivity.
  - intros doc e tr' O H. unfold extract, Main.extract_text_from_pdf in H.
    cbn [negb] in H. rewrite O in H.
    destruct (Main.for_pages _ _ _ doc [] tr) as [[pages|e0] tr1] eqn:F;
      [discriminate|].
    injection H as <- <-. exact (@for_pages_err doc [] tr e0 tr1 F).
  - reflexivity.
Qed.


End ExtractionFailures.

Lemma extract_text_from_pdf_failures_witness :
  let scan := Main.Page [] (fun _ => Main.Pixmap 2 2 []) in
  let native := Main.Page (T "Total 5") (fun _ => Main.Pixmap 1 1 []) in
  let to_url (_ : unit) := T "data:image/png;base64," in
  let frombytes (_ : text) (_ : Z * Z) (_ : list ascii) := tt in
  let fitz_open (_ : list ascii) := Ok [native; scan; scan; native] in
  let vision : Main.client :=
    fun tr _ => match tr with
                | [] => Ok (VStr (T "scanned"))
                | _ => Err (ServiceError (T "quota"))
                end in
  exists before pg after,
    [native; scan; scan; native] = before ++ pg :: after /\
    Main.blank pg = true /\
    let sent := [] ++ map (Main.ocr_request to_url frombytes) (filter Main.blank before) in
    vision sent (Main.ocr_request to_url frombytes pg) = Err (ServiceError (T "quota")) /\
    [Main.ocr_request to_url frombytes scan; Main.ocr_request to_url frombytes scan]
      = sent ++ [Main.ocr_request to_url frombytes pg].
Proof.
  intros scan native to_url frombytes fitz_open vision.
  exact (proj1 (proj2 (extract_text_from_pdf_failures to_url frombytes fitz_open
                         vision [] []))
           [native; scan; scan; native] (ServiceError (T "quota"))
           [Main.ocr_request to_url frombytes scan; Main.ocr_request to_url frombytes scan]
           eq_refl eq_refl).
Defined.


(** ** Responses that are dictionaries or plain values *)

(** X12.  A response that is a dictionary is read by its keys.  Without
    a [choices] key, or with an empty list of choices, the result is the
    conversion of the whole dictionary.  When the first choice is a
    dictionary whose [message] is a dictionary, the result is the
    stripped [content] of the message; a message without [content] gives
    the empty text, also when the choice has a [text]; a [content] that
    is no string gives the conversion of the whole dictionary.  The
    [text] of the choice is read only when the choice has no [message]
    that is a dictionary. *)
Theorem resp_text_dict (d : list (text * value)) :
  let resp := VDict d in
  (assoc (T "choices") d = None ->
   Main._resp_text resp = Ok (strip (py_str resp))) /\
  (assoc (T "choices") d = Some (VList []) ->
   Main._resp_text resp = Ok (strip (py_str resp))) /\
  (forall ch rest m,
     assoc (T "choices") d = Some (VList (VDict ch :: rest)) ->
     assoc (T "message") ch = Some (VDict m) ->
     Main._resp_text resp =
       Ok match assoc (T "content") m with
          | Some (VStr s) => strip s
          | Some _ => strip (py_str resp)
          | None => []
          end) /\
  (forall ch rest t,
     assoc (T "choices") d = Some (VList (VDict ch :: rest)) ->
     match assoc (T "message") ch with Some (VDict _) => false | _ => true end = true ->
     assoc (T "text") ch = Some t ->
     Main._resp_text resp =
       Ok match t with
          | VStr s => strip s
          | _ => strip (py_str resp)
          end).
Proof.
  intros resp. unfold resp, Main._resp_text, Main.try_block.
  cbn [Main.by_attributes Main.by_keys Main.by_content getattr then_].
  split; [|split; [|split]].
  - intros ->. reflexivity.
  - intros ->. reflexivity.
  - intros ch rest m -> M. cbn [item0 eval py_in item]. rewrite M.
    cbn [eval then_ Main.return_strip dict_get].
    unfold dict_get. destruct (assoc (T "content") m) as [[]|]; reflexivity.
  - intros ch rest t -> M Tx. cbn [item0 eval py_in item]. rewrite Tx.
    destruct (assoc (T "message") ch) as [[]|]; try discriminate;
      destruct t; reflexivity.
Qed.

Lemma resp_text_dict_witness :
  Main._resp_text
    (VDict [(T "choices",
             VList [VDict [(T "message", VDict [(T "role", VStr (T "assistant"))]);
                           (T "text", VStr (T "flat"))]])])
  = Ok [].
Proof.
  exact (proj1 (proj2 (proj2 (resp_text_dict
           [(T "choices",
             VList [VDict [(T "message", VDict [(T "role", VStr (T "assistant"))]);
                           (T "text", VStr (T "flat"))]])])))
           _ _ _ eq_refl eq_refl).
Defined.

(** X13.  A reply that is a plain string comes back stripped, and
    normalizing is idempotent: the text [_resp_text] returns, given to
    it again, comes back as it is. *)
Theorem resp_text_plain (resp : value) :
  (forall s, Main._resp_text (VStr s) = Ok (strip s)) /\
  (forall s, Main._resp_text resp = Ok s -> Main._resp_text (VStr s) = Ok s).
Proof.
  assert (H : forall s, Main._resp_text (VStr s) = Ok (strip s)) by reflexivity.
  split; [exact H|]. intros s E. rewrite H.
  destruct (resp_text_stripped resp) as (s' & R). rewrite R in E.
  injection E as <-. rewrite strip_idem. reflexivity.
Qed.

Lemma resp_text_plain_witness :
  Main._resp_text (VStr (T "None")) = Ok (T "None").
Proof.
  exact (proj2 (resp_text_plain VNone) (T "None") eq_refl).
Defined.

(** ** The buttons *)

Section SendProperties.
Variable policy : Type.
Variable json_dumps : policy -> text.

(** X14.  The send button.  The text sent is the stripped composer
    text.  When it is empty nothing happens: no request, no change.
    Otherwise one request goes out, the history of the session followed
    by the new user message.  When the client answers, the history gets
    the reply and the composer is flagged to be emptied.  When the
    client raises, the error is shown, the composer keeps its text, and
    the history keeps the user message that was not answered.  The bill
    text is never changed. *)
Theorem send_click_spec (chat_client : Main.client) (pol : policy)
    (st : App.session) (tr : Main.trace) :
  let text_ :=
    strip (match App.composer st with Some s => s | None => [] end) in
  let result := App.send_click json_dumps chat_client pol st tr in
  let st' := fst (fst result) in
  App.bill_text st' = App.bill_text st /\
  App.composer st' = App.composer st /\
  (text_ = [] -> result = (st, App.Quiet, tr)) /\
  (text_ <> [] ->
   let sent :=
     Main.refresh (App.chat_history st)
       (Main.system_msg json_dumps pol (App.bill_text st))
       ++ [Main.user_message text_] in
   snd result = tr ++ [sent] /\
   match chat_client tr sent with
   | Ok resp =>
       exists reply,
         Main._resp_text resp = Ok reply /\
         App.chat_history st' = sent ++ [Main.assistant_message reply] /\
         App.clear_composer st' = true /\
         snd (fst result) = App.Quiet
   | Err e =>
       App.chat_history st' = sent /\
       App.clear_composer st' = App.clear_composer st /\
       snd (fst result) = App.Failure e
   end).
Proof.
  intros text_ result st'. subst st' result. unfold App.send_click.
  assert (E : text_ = strip (match App.composer st with Some s => s | None => [] end))
    by reflexivity.
  clearbody text_. rewrite <- E. clear E. destruct text_ as [|c t].
  - cbn [fst snd]. split; [reflexivity|]. split; [reflexivity|].
    split; [reflexivity|]. intros C. exfalso. apply C. reflexivity.
  - rewrite chat_with_history_eq.
    destruct (chat_client tr _) as [resp|e].
    + destruct (resp_text_returns resp) as (reply & R). rewrite R. cbn [fst snd].
      split; [reflexivity|]. split; [reflexivity|]. split; [discriminate|].
      intros _. cbv zeta. split; [reflexivity|]. exists reply.
      repeat split.
    + cbn [fst snd]. split; [reflexivity|]. split; [reflexivity|].
      split; [discriminate|].
      intros _. cbv zeta. split; [reflexivity|]. repeat split.
Qed.

End SendProperties.

Lemma send_click_spec_witness :
  let chat_client : Main.client := fun _ _ => Ok (VStr (T "hello")) in
  let st := App.Session [] (T "bill") (Some (T "   ")) false in
  App.send_click (fun _ : unit => T "{}") chat_client tt st [] = (st, App.Quiet, []).
Proof.
  intros chat_client st.
  exact (proj1 (proj2 (proj2 (send_click_spec (fun _ : unit => T "{}")
                                chat_client tt st [])))
           eq_refl).
Defined.

Section ExtractProperties.
Variable image : Type.
Variable pil_to_data_url : image -> text.
Variable frombytes : text -> Z * Z -> list ascii -> image.
Variable fitz_open : list ascii -> outcome (list Main.page).
Variable image_open : list ascii -> outcome image.

(** X15.  The extract button.  It never touches the conversation or the
    composer.  Without an uploaded file it warns and sends nothing.
    When the extraction raises, the error is shown and the bill text of
    the session stays as it was.  An image that cannot be opened fails
    before anything is sent; an image sends one request.  Without the
    rendering library a PDF upload is reported as a success and the
    install hint becomes the bill text. *)
Theorem extract_click_spec (PYMUPDF_OK : bool) (up : option App.upload)
    (vision_client : Main.client) (st : App.session) (tr : Main.trace) :
  let result :=
    App.extract_click pil_to_data_url frombytes fitz_open image_open PYMUPDF_OK
      up vision_client st tr in
  let st' := fst (fst result) in
  App.chat_history st' = App.chat_history st /\
  App.composer st' = App.composer st /\
  App.clear_composer st' = App.clear_composer st /\
  (up = None -> result = (st, App.Warning, tr)) /\
  (forall e, snd (fst result) = App.Failure e -> st' = st) /\
  (forall u,
     up = Some u -> startswith (T "image/") (App.type_ u) = true ->
     match image_open (App.data u) with
     | Err e => result = (st, App.Failure e, tr)
     | Ok img => snd result = tr ++ [Main.ocr_messages (pil_to_data_url img)]
     end) /\
  (forall u,
     up = Some u -> startswith (T "image/") (App.type_ u) = false ->
     PYMUPDF_OK = false ->
     result =
       (App.Session (App.chat_history st) (T "PDF OCR requires `pip install pymupdf`")
          (App.composer st) (App.clear_composer st),
        App.Success, tr)).
Proof.
  intros result st'. unfold st', result, App.extract_click.
  destruct up as [u|]; [|cbn [fst snd]; repeat split; discriminate].
  set (r := if startswith (T "image/") (App.type_ u) then _ else _).
  assert (General :
            App.chat_history (fst (fst
              match r with
              | (Ok t, tr') =>
                  (App.Session (App.chat_history st) t (App.composer st)
                     (App.clear_composer st), App.Success, tr')
              | (Err e, tr') => (st, App.Failure e, tr')
              end)) = App.chat_history st /\
            App.composer (fst (fst
              match r with
              | (Ok t, tr') =>
                  (App.Session (App.chat_history st) t (App.composer st)
                     (App.clear_composer st), App.Success, tr')
              | (Err e, tr') => (st, App.Failure e, tr')
              end)) = App.composer st /\
            App.clear_composer (fst (fst
              match r with
              | (Ok t, tr') =>
                  (App.Session (App.chat_history st) t (App.composer st)
                     (App.clear_composer st), App.Success, tr')
              | (Err e, tr') => (st, App.Failure e, tr')
              end)) = App.clear_composer st /\
            (forall e,
               snd (fst
                 match r with
                 | (Ok t, tr') =>
                     (App.Session (App.chat_history st) t (App.composer st)
                        (App.clear_composer st), App.Success, tr')
                 | (Err e, tr') => (st, App.Failure e, tr')
                 end) = App.Failure e ->
               fst (fst
                 match r with
                 | (Ok t, tr') =>
                     (App.Session (App.chat_history st) t (App.composer st)
                        (App.clear_composer st), App.Success, tr')
                 | (Err e, tr') => (st, App.Failure e, tr')
                 end) = st)).
  { destruct r as [[t|e] tr']; cbn [fst snd]; repeat split; discriminate. }
  destruct General as (G1 & G2 & G3 & G4).
  split; [exact G1|]. split; [exact G2|]. split; [exact G3|].
  split; [discriminate|]. split; [exact G4|]. split.
  - intros u' [= <-] I. unfold r. rewrite I.
    destruct (image_open (App.data u)) as [img|e]; [|reflexivity].
    unfold Main.extract_text_from_image, Main.invoke.
    destruct (vision_client tr _) as [resp|e]; [|reflexivity].
    destruct (resp_text_returns resp) as (s & ->). reflexivity.
  - intros u' [= <-] I ->. unfold r. rewrite I. reflexivity.
Qed.

End ExtractProperties.

Lemma extract_click_spec_witness :
  let st := App.Session [] (T "old bill") None false in
  let vision : Main.client := fun _ _ => Ok (VStr (T "scanned")) in
  App.extract_click (fun _ : unit => T "data:,") (fun _ _ _ => tt)
    (fun _ => Err (ServiceError (T "no pdf"))) (fun _ => Ok tt) false
    (Some (App.Upload (T "application/pdf") [])) vision st []
  = (App.Session [] (T "PDF OCR requires `pip install pymupdf`") None false,
     App.Success, []).
Proof.
  intros st vision.
  exact (proj2 (proj2 (proj2 (proj2 (proj2 (proj2
           (extract_click_spec (fun _ : unit => T "data:,") (fun _ _ _ => tt)
              (fun _ => Err (ServiceError (T "no pdf"))) (fun _ => Ok tt) false
              (Some (App.Upload (T "application/pdf") [])) vision st []))))))
           (App.Upload (T "application/pdf") []) eq_refl eq_refl eq_refl).
Defined.

Section ComposerProperties.
Variable policy : Type.
Variable json_dumps : policy -> text.

(** X16.  The composer after a click.  A send that was answered flags
    the composer, the next run empties it and drops the flag, and a
    second click on the send button then sends nothing: no message goes
    out twice.  The reset button empties the conversation and, on the
    next run, the composer; it keeps the bill text.  The clear button
    empties the bill text and nothing else. *)
Theorem composer_cleared_after_send (chat_client : Main.client) (pol : policy)
    (st : App.session) (tr : Main.trace) :
  let first := App.send_click json_dumps chat_client pol st tr in
  let st1 := App.begin_run (fst (fst first)) in
  (App.clear_composer (fst (fst first)) = true ->
   App.composer st1 = Some [] /\
   App.clear_composer st1 = false /\
   App.chat_history st1 = App.chat_history (fst (fst first)) /\
   App.send_click json_dumps chat_client pol st1 (snd first)
     = (st1, App.Quiet, snd first)) /\
  App.begin_run (App.reset_click st) = App.Session [] (App.bill_text st) (Some []) false /\
  App.send_click json_dumps chat_client pol (App.begin_run (App.reset_click st)) tr
    = (App.begin_run (App.reset_click st), App.Quiet, tr) /\
  App.clear_click st
    = App.Session (App.chat_history st) [] (App.composer st) (App.clear_composer st).
Proof.
  intros first st1. split; [|repeat split].
  intros F. unfold st1, App.begin_run. rewrite F. cbn [App.composer App.clear_composer
    App.chat_history]. repeat split.
Qed.

End ComposerProperties.

Lemma composer_cleared_after_send_witness :
  let chat_client : Main.client := fun _ _ => Ok (VStr (T "hello")) in
  let st := App.Session [] (T "bill") (Some (T "hi")) false in
  let first := App.send_click (fun _ : unit => T "{}") chat_client tt st [] in
  App.send_click (fun _ : unit => T "{}") chat_client tt
    (App.begin_run (fst (fst first))) (snd first)
  = (App.begin_run (fst (fst first)), App.Quiet, snd first).
Proof.
  intros chat_client st first.
  exact (proj2 (proj2 (proj2 (proj1 (composer_cleared_after_send
                                       (fun _ : unit => T "{}") chat_client tt st [])
                                eq_refl)))).
Defined.

(** ** Texts without digits *)






